(** * genutil: resolution of the data-tree children of a YANG schema entry

    A shallow embedding of [genutil/common.go] (package [genutil] of ygot):
    the compression policy [CompressBehaviour], the duplicate guard
    [addNewChild], the choice/case helpers [addNonChoiceChildren] and
    [addNonChoiceChildrenDuplist], [findAllChildrenWithoutCompression] and
    [FindAllChildren].

    Go maps that the code builds ([directChildren], [prioNames]) are finite
    maps and sets of stdpp; the in-place updates of the Go code are written
    as explicit state passing. *)

From Stdlib Require Import String List Bool.
From stdpp Require Import base option list strings gmap fin_maps sorting.

Local Open Scope string_scope.
Local Open Scope list_scope.

(** ** The schema tree ([yang.Entry]) *)

(** [yang.TriState]: the value of the [config] statement of a node. *)
Inductive TriState : Type := TSUnset | TSTrue | TSFalse.

(** The kinds of node the resolver distinguishes.  [Leaf] and [LeafRef] are
    the entries that are not directories; [LeafRef] is a leaf whose
    [Type.Kind] is [yang.Yleafref]. *)
Inductive EntryKind : Type := Leaf | LeafRef | Container | List | Choice | Case.

(** What the code reads through the [Parent] pointer of an entry: the name
    (for [Path]) and the [config] statement (for [util.IsConfig]) of an
    ancestor. *)
Record Ancestor : Type := mkAncestor { aName : string; aConfig : TriState }.

#[local] Set Warnings "-register-all,-clear-no-such-hyp".

(** An entry of the schema.  [Parent] is the chain of [Parent] pointers,
    nearest ancestor first, empty at the root.  [Dir] holds the declared
    children in declaration order. *)
Inductive Entry : Type := mkEntry {
  Name : string;
  Kind : EntryKind;
  Config : TriState;
  Parent : list Ancestor;
  Dir : list Entry
}.

#[global] Instance TriState_eq_dec : EqDecision TriState.
Proof. solve_decision. Defined.

#[global] Instance EntryKind_eq_dec : EqDecision EntryKind.
Proof. solve_decision. Defined.

#[global] Instance Ancestor_eq_dec : EqDecision Ancestor.
Proof. solve_decision. Defined.

(** ** The compression policy *)

Module Policy.

(** [CompressBehaviour], in the order of the [iota] block. *)
Inductive CompressBehaviour : Type :=
| Uncompressed
| UncompressedExcludeDerivedState
| PreferIntendedConfig
| PreferOperationalState
| ExcludeDerivedState.

#[global] Instance CompressBehaviour_eq_dec : EqDecision CompressBehaviour.
Proof. solve_decision. Defined.

Definition CompressEnabled (c : CompressBehaviour) : bool :=
match c with
| Uncompressed | UncompressedExcludeDerivedState => false
| _ => true
end.

Definition StateExcluded (c : CompressBehaviour) : bool :=
match c with
| ExcludeDerivedState | UncompressedExcludeDerivedState => true
| _ => false
end.

Definition TranslateToCompressBehaviour (compressPaths excludeState : bool)
: CompressBehaviour :=
if compressPaths && excludeState then ExcludeDerivedState
else if compressPaths then PreferIntendedConfig
else if excludeState then UncompressedExcludeDerivedState
else Uncompressed.

End Policy.
Export Policy.


(** ** Entry predicates and helpers used by the resolver *)

(** Modelled from the spec: [yang.Entry.IsDir], [IsList] and
    [IsContainer] of goyang are not part of the sources; the data model gives
    every node a kind, and the directories are the containers, lists,
    choices and cases. *)
Definition IsDir (e : Entry) : bool :=
  match Kind e with
  | Container | List | Choice | Case => true
  | Leaf | LeafRef => false
  end.

Definition IsList (e : Entry) : bool :=
  match Kind e with List => true | _ => false end.

Definition IsContainer (e : Entry) : bool :=
  match Kind e with Container => true | _ => false end.

(** [e.Type.Kind == yang.Yleafref], read on entries that are not
    directories. *)
Definition IsLeafRef (e : Entry) : bool :=
  match Kind e with LeafRef => true | _ => false end.

(** Modelled from the spec: [yang.Entry.Path] is not part of the sources;
    the path is the slash-separated ancestor chain, root first, ending in the
    entry's own name. *)
Definition Path (e : Entry) : string :=
  foldr (fun a s => "/" +:+ aName a +:+ s) ("/" +:+ Name e) (rev (Parent e)).

(** [e.Dir[name]]: the declared child of that name. *)
Definition DirLookup (e : Entry) (name : string) : option Entry :=
  find (fun c => String.eqb (Name c) name) (Dir e).

Module util.

(** Modelled from the spec: [util.Children] is not part of the sources; it
  yields the declared children of a node, in declaration order. *)
Definition Children (e : Entry) : list Entry := Dir e.

(** Modelled from the spec: [util.IsChoiceOrCase] is not part of the
  sources; the wrapper nodes are the choices and the cases. *)
Definition IsChoiceOrCase (e : Entry) : bool :=
match Kind e with Choice | Case => true | _ => false end.

(** The visibility an entry inherits: the one of the nearest ancestor with
  an explicit [config] statement, writable when there is none. *)
Fixpoint inheritedConfig (up : list Ancestor) : bool :=
match up with
| [] => true
| a :: up' =>
    match aConfig a with
    | TSTrue => true
    | TSFalse => false
    | TSUnset => inheritedConfig up'
    end
end.

(** Modelled from the spec: [util.IsConfig] is not part of the sources; a
  node is writable or read-only as its own [config] statement says, and
  inherits from its nearest ancestor with an explicit value otherwise (the
  root is writable). *)
Definition IsConfig (e : Entry) : bool :=
match Config e with
| TSTrue => true
| TSFalse => false
| TSUnset => inheritedConfig (Parent e)
end.

(** Modelled from the spec: [util.IsConfigState] is not part of the
  sources; a config/state node is a container literally named [config] or
  [state]. *)
Definition IsConfigState (e : Entry) : bool :=
IsContainer e && (String.eqb (Name e) "config" || String.eqb (Name e) "state").

(** The first descendants of a branch that are not wrappers: the node itself
  unless it is a choice or a case, the results of its children otherwise. *)
Fixpoint findFirstNonChoiceOrCaseInternal (e : Entry) : list Entry :=
if IsChoiceOrCase e
then flat_map findFirstNonChoiceOrCaseInternal (Dir e)
else [e].

(** Modelled from the spec: [util.FindFirstNonChoiceOrCase] is not part of
  the sources; it descends through the choices and cases below a node and
  collects, branch by branch in declaration order, the first descendants
  that are not themselves a choice or a case. *)
Definition FindFirstNonChoiceOrCase (e : Entry) : list Entry :=
flat_map findFirstNonChoiceOrCaseInternal (Dir e).

End util.
Export util.

(** ** The duplicate guard and the choice/case helpers *)

(** The message of [fmt.Errorf("%s was duplicate", v.Path())]. *)
Definition duplicateError (v : Entry) : string := Path v +:+ " was duplicate".

(** [addNewChild]: [m[k] = v] when [k] is free, an error appended to [errs]
    otherwise.  The Go function updates [m] in place and returns [errs]; here
    both are returned. *)
Definition addNewChild (m : gmap string Entry) (k : string) (v : Entry)
    (errs : list string) : gmap string Entry * list string :=
  match m !! k with
  | None => (<[k := v]> m, errs)
  | Some _ => (m, errs ++ [duplicateError v])
  end.

Definition addNonChoiceChildren (m : gmap string Entry) (e : Entry)
    (errs : list string) : gmap string Entry * list string :=
  foldl (fun st n => addNewChild st.1 (Name n) n st.2) (m, errs)
        (FindFirstNonChoiceOrCase e).

Definition addNonChoiceChildrenDuplist (m : gmap string Entry) (e : Entry)
    (duplist : gset string) (errs : list string)
  : gmap string Entry * list string :=
  foldl (fun st n =>
           if bool_decide (Name n ∈ duplist) then st
           else addNewChild st.1 (Name n) n st.2)
        (m, errs) (FindFirstNonChoiceOrCase e).

(** ** Resolution without compression *)

Definition findAllChildrenWithoutCompression (e : Entry) (excludeState : bool)
  : gmap string Entry * list string :=
  foldl (fun st child =>
           if excludeState && negb (IsConfig child) then st
           else if IsChoiceOrCase child
                then addNonChoiceChildren st.1 child st.2
                else addNewChild st.1 (Name child) child st.2)
        (∅, []) (Children e).

(** ** Resolution with compression *)

(** The variables the loop of [FindAllChildren] updates. *)
Record LoopState : Type := mkLoop {
  directChildren : gmap string Entry;
  prioNames : gset string;
  errs : list string
}.

(** [orderedChildNames]: the prioritized container first when the node is a
    container or a list and declares it, then every other child. *)
Definition orderedChildNames (e : Entry) (prioData : string) : list string :=
  (if IsContainer e || IsList e
   then match DirLookup e prioData with
        | Some _ => [prioData]
        | None => []
        end
   else [])
  ++ map Name (filter (fun child => negb (String.eqb (Name child) prioData))
                      (Children e)).

(** One iteration of the loop over the children of a [config] or [state]
    container [c] (the body of the [for] at line 323). *)
Definition configStateStep (c : Entry) (prioData deprioData : string)
    (st : LoopState) (configStateChild : Entry) : LoopState :=
  let added :=
    if String.eqb (Name c) deprioData then
      if IsChoiceOrCase configStateChild
      then addNonChoiceChildrenDuplist (directChildren st) configStateChild
             (prioNames st) (errs st)
      else if negb (bool_decide (Name configStateChild ∈ prioNames st))
           then addNewChild (directChildren st) (Name configStateChild)
                  configStateChild (errs st)
           else (directChildren st, errs st)
    else
      if IsChoiceOrCase configStateChild
      then addNonChoiceChildren (directChildren st) configStateChild (errs st)
      else addNewChild (directChildren st) (Name configStateChild)
             configStateChild (errs st) in
  let names :=
    if String.eqb (Name c) prioData then
      if IsChoiceOrCase configStateChild
      then foldl (fun s entry => {[Name entry]} ∪ s) (prioNames st)
             (FindFirstNonChoiceOrCase configStateChild)
      else {[Name configStateChild]} ∪ prioNames st
    else prioNames st in
  mkLoop added.1 names added.2.

(** The guard of rule 2: the grandchildren are exactly one list. *)
Definition singletonList (eGrandChildren : list Entry) : option Entry :=
  match eGrandChildren with
  | [l] => if IsList l then Some l else None
  | _ => None
  end.

Definition withChildren (st : LoopState)
    (r : gmap string Entry * list string) : LoopState :=
  mkLoop r.1 (prioNames st) r.2.

(** One iteration of the loop over [orderedChildNames] (the body of the
    [for] at line 309).  A name of [orderedChildNames] is always declared in
    [e.Dir], see [orderedChildNames_declared]. *)
Definition childStep (e : Entry) (excludeState : bool)
    (prioData deprioData : string) (st : LoopState) (currChild : string)
  : LoopState :=
  match DirLookup e currChild with
  | None => st
  | Some c =>
      if excludeState && negb (IsConfig c) then st
      else if IsConfigState c then
        foldl (configStateStep c prioData deprioData) st (Children c)
      else if IsDir c then
        match singletonList (Children c) with
        | Some l =>
            if negb (IsConfig l) && excludeState then st
            else withChildren st
                   (addNewChild (directChildren st) (Name l) l (errs st))
        | None =>
            if IsChoiceOrCase c
            then withChildren st
                   (addNonChoiceChildren (directChildren st) c (errs st))
            else withChildren st
                   (addNewChild (directChildren st) (Name c) c (errs st))
        end
      else
        if negb (IsList e && IsLeafRef c)
        then withChildren st
               (addNewChild (directChildren st) (Name c) c (errs st))
        else st
  end.

(** The compressed part of [FindAllChildren] (lines 271 to 402). *)
Definition compressedChildren (e : Entry) (excludeState : bool)
    (prioData deprioData : string) : gmap string Entry * list string :=
  let st := foldl (childStep e excludeState prioData deprioData)
                  (mkLoop ∅ ∅ []) (orderedChildNames e prioData) in
  (directChildren st, errs st).

(** [FindAllChildren].  The Go function returns [nil, nil] at the visibility
    guard; a nil map is the empty mapping. *)
Definition FindAllChildren (e : Entry) (compBehaviour : CompressBehaviour)
  : gmap string Entry * list string :=
  let excludeState :=
    bool_decide (compBehaviour = ExcludeDerivedState)
    || bool_decide (compBehaviour = UncompressedExcludeDerivedState) in
  if excludeState && negb (IsConfig e) then (∅, [])
  else
    match compBehaviour with
    | Uncompressed | UncompressedExcludeDerivedState =>
        findAllChildrenWithoutCompression e excludeState
    | PreferIntendedConfig | ExcludeDerivedState =>
        compressedChildren e excludeState "config" "state"
    | PreferOperationalState =>
        compressedChildren e excludeState "state" "config"
    end.

(** ** Schema trees used in the examples *)

(** The tree of the documentation of [FindAllChildren], as far as scenario A
    of the specification uses it. *)
Module ScenarioA.

Definition up_interface : list Ancestor := [mkAncestor "interface" TSUnset].
Definition up_config : list Ancestor :=
  mkAncestor "config" TSUnset :: up_interface.
Definition up_state : list Ancestor :=
  mkAncestor "state" TSFalse :: up_interface.

Definition config_admin_state : Entry :=
  mkEntry "admin-state" Leaf TSUnset up_config [].
Definition state_admin_state : Entry :=
  mkEntry "admin-state" Leaf TSUnset up_state [].
Definition oper_state : Entry :=
  mkEntry "oper-state" Leaf TSUnset up_state [].
Definition in_pkts : Entry :=
  mkEntry "in-pkts" Leaf TSUnset (mkAncestor "counters" TSUnset :: up_state) [].
Definition counters : Entry :=
  mkEntry "counters" Container TSUnset up_state [in_pkts].
Definition config : Entry :=
  mkEntry "config" Container TSUnset up_interface [config_admin_state].
Definition state : Entry :=
  mkEntry "state" Container TSFalse up_interface
    [state_admin_state; oper_state; counters].
Definition interface : Entry :=
  mkEntry "interface" Container TSUnset [] [config; state].

End ScenarioA.

(** ** The candidates of a call

    A second description of [FindAllChildren], following the steps of the
    resolver one by one: the list of the nodes offered to the duplicate
    guard, in the order in which they are offered.  The theorems below relate
    it to the loops of the code. *)

(** The guard applied to a whole list of candidates. *)
Definition addAll (st : gmap string Entry * list string) (cs : list Entry)
  : gmap string Entry * list string :=
  foldl (fun st n => addNewChild st.1 (Name n) n st.2) st cs.

(** A node, or what it flattens to when it is a choice or a case. *)
Definition flattened (g : Entry) : list Entry :=
  if IsChoiceOrCase g then FindFirstNonChoiceOrCase g else [g].

Definition uncompressedCandidates (e : Entry) (excludeState : bool)
  : list Entry :=
  flat_map (fun child =>
              if excludeState && negb (IsConfig child) then []
              else flattened child)
           (Children e).

(** The names recorded from the prioritized container: empty unless the node
    is a container or a list whose prioritized child is a config/state
    container that is not skipped as read-only. *)
Definition prioWhitelist (e : Entry) (excludeState : bool) (prioData : string)
  : gset string :=
  if IsContainer e || IsList e then
    match DirLookup e prioData with
    | Some c =>
        if excludeState && negb (IsConfig c) then ∅
        else if IsConfigState c
             then list_to_set (map Name (flat_map flattened (Children c)))
             else ∅
    | None => ∅
    end
  else ∅.

(** The candidates a scheduled child contributes, for the whitelist [W]. *)
Definition childCandidates (e : Entry) (excludeState : bool)
    (deprioData : string) (W : gset string) (currChild : string)
  : list Entry :=
  match DirLookup e currChild with
  | None => []
  | Some c =>
      if excludeState && negb (IsConfig c) then []
      else if IsConfigState c then
        if String.eqb (Name c) deprioData
        then filter (fun g => Name g ∉ W) (flat_map flattened (Children c))
        else flat_map flattened (Children c)
      else if IsDir c then
        match singletonList (Children c) with
        | Some l => if negb (IsConfig l) && excludeState then [] else [l]
        | None => flattened c
        end
      else if negb (IsList e && IsLeafRef c) then [c] else []
  end.

Definition compressedCandidates (e : Entry) (excludeState : bool)
    (prioData deprioData : string) : list Entry :=
  flat_map (childCandidates e excludeState deprioData
              (prioWhitelist e excludeState prioData))
           (orderedChildNames e prioData).

Definition candidates (e : Entry) (p : CompressBehaviour) : list Entry :=
  if StateExcluded p && negb (IsConfig e) then []
  else
    match p with
    | Uncompressed | UncompressedExcludeDerivedState =>
        uncompressedCandidates e (StateExcluded p)
    | PreferIntendedConfig | ExcludeDerivedState =>
        compressedCandidates e (StateExcluded p) "config" "state"
    | PreferOperationalState =>
        compressedCandidates e (StateExcluded p) "state" "config"
    end.

(** The candidates the guard turns down: those whose name is in [seen] or is
    the name of an earlier candidate. *)
Fixpoint rejected (seen : gset string) (cs : list Entry) : list Entry :=
  match cs with
  | [] => []
  | c :: cs' =>
      if bool_decide (Name c ∈ seen) then c :: rejected seen cs'
      else rejected ({[Name c]} ∪ seen) cs'
  end.

(** The first candidate of a given name. *)
Definition firstNamed (k : string) (cs : list Entry) : option Entry :=
  find (fun c => String.eqb (Name c) k) cs.

(** ** Well-linked trees *)

(** [linked up e]: the [Parent] chain of [e] is [up] and every descendant
    points back to its parent, as in a tree built by the schema loader. *)
Fixpoint linked (up : list Ancestor) (e : Entry) : bool :=
  bool_decide (Parent e = up)
  && forallb (linked (mkAncestor (Name e) (Config e) :: up)) (Dir e).

Definition wellLinked (e : Entry) : bool := linked (Parent e) e.

(** Induction on schema trees, with the hypothesis for every child. *)
Fixpoint Entry_tree_ind (P : Entry -> Prop)
    (step : forall e, Forall P (Dir e) -> P e) (e : Entry) : P e :=
  match e with
  | mkEntry n k c p d =>
      step (mkEntry n k c p d)
        ((fix children (l : list Entry) : Forall P l :=
            match l with
            | [] => @Stdlib.Lists.List.Forall_nil _ P
            | x :: l' =>
                @Stdlib.Lists.List.Forall_cons _ P x l' (Entry_tree_ind P step x)
                  (children l')
            end) d)
  end.

(** ** Definitions used in the statements *)

(** The names the [switch] at line 260 gives to the prioritized and to the
    deprioritized container under a compressed policy. *)
Definition prioData (p : CompressBehaviour) : string :=
  match p with PreferOperationalState => "state" | _ => "config" end.

Definition deprioData (p : CompressBehaviour) : string :=
  match p with PreferOperationalState => "config" | _ => "state" end.

(** The same node, with the children of a given name not declared. *)
Definition withoutChild (name : string) (e : Entry) : Entry :=
  mkEntry (Name e) (Kind e) (Config e) (Parent e)
          (filter (fun c => Name c <> name) (Dir e)).

(** The same node, with [f] applied to its declared children of a given
    name. *)
Definition mapChild (name : string) (f : Entry -> Entry) (e : Entry) : Entry :=
  mkEntry (Name e) (Kind e) (Config e) (Parent e)
          (map (fun c => if String.eqb (Name c) name then f c else c) (Dir e)).

(** The same container, without its children named [x] that are not choices
    or cases. *)
Definition withoutNamed (x : string) (s : Entry) : Entry :=
  mkEntry (Name s) (Kind s) (Config s) (Parent s)
          (filter (fun g => negb (String.eqb (Name g) x
                                  && negb (IsChoiceOrCase g)))
                  (Dir s)).

(** A read-only list below a writable root, its leaves inheriting. *)
Module ReadOnly.

Definition up_state : list Ancestor :=
  [mkAncestor "state" TSFalse; mkAncestor "device" TSUnset].
Definition uptime : Entry :=
  mkEntry "uptime" Leaf TSUnset (mkAncestor "neighbor" TSUnset :: up_state) [].
Definition neighbor : Entry :=
  mkEntry "neighbor" List TSUnset up_state [uptime].

End ReadOnly.

(** A case that declares a [config] and a [state] container. *)
Module CaseNode.

Definition up_case : list Ancestor := [mkAncestor "static" TSUnset].
Definition config_a : Entry :=
  mkEntry "a" Leaf TSUnset (mkAncestor "config" TSUnset :: up_case) [].
Definition state_a : Entry :=
  mkEntry "a" Leaf TSUnset (mkAncestor "state" TSUnset :: up_case) [].
Definition state_b : Entry :=
  mkEntry "b" Leaf TSUnset (mkAncestor "state" TSUnset :: up_case) [].
Definition config : Entry :=
  mkEntry "config" Container TSUnset up_case [config_a].
Definition state : Entry :=
  mkEntry "state" Container TSUnset up_case [state_a; state_b].
Definition static : Entry :=
  mkEntry "static" Case TSUnset [] [config; state].

End CaseNode.

(** A list keyed by a leafref that points to the leaf of its [config]
    container. *)
Module KeyedList.

Definition up_interface : list Ancestor := [mkAncestor "interface" TSUnset].
Definition name_ref : Entry :=
  mkEntry "name" LeafRef TSUnset up_interface [].
Definition config_name : Entry :=
  mkEntry "name" Leaf TSUnset (mkAncestor "config" TSUnset :: up_interface) [].
Definition config : Entry :=
  mkEntry "config" Container TSUnset up_interface [config_name].
Definition interface : Entry :=
  mkEntry "interface" List TSUnset [] [name_ref; config].

End KeyedList.

(** Scenario C of the specification: a container around a single list. *)
Module ScenarioC.

Definition up_interfaces : list Ancestor := [mkAncestor "interfaces" TSUnset].
Definition interface_list : Entry :=
  mkEntry "interface-list" List TSUnset
          (mkAncestor "interface" TSUnset :: up_interfaces) [].
Definition interface : Entry :=
  mkEntry "interface" Container TSUnset up_interfaces [interface_list].
Definition interfaces : Entry :=
  mkEntry "interfaces" Container TSUnset [] [interface].

End ScenarioC.

(** Two containers, each around a list of the same name. *)
Module TwoWrappers.

Definition up_top : list Ancestor := [mkAncestor "top" TSUnset].
Definition a_item : Entry :=
  mkEntry "item" List TSUnset (mkAncestor "a" TSUnset :: up_top) [].
Definition b_item : Entry :=
  mkEntry "item" List TSUnset (mkAncestor "b" TSUnset :: up_top) [].
Definition a : Entry := mkEntry "a" Container TSUnset up_top [a_item].
Definition b : Entry := mkEntry "b" Container TSUnset up_top [b_item].
Definition top : Entry := mkEntry "top" Container TSUnset [] [a; b].

End TwoWrappers.

(** A read-only node that declares a [config] and a [state] container with
    the same leaf. *)
Module ReadOnlyPair.

Definition up_system : list Ancestor := [mkAncestor "system" TSFalse].
Definition config_x : Entry :=
  mkEntry "x" Leaf TSUnset (mkAncestor "config" TSUnset :: up_system) [].
Definition state_x : Entry :=
  mkEntry "x" Leaf TSUnset (mkAncestor "state" TSUnset :: up_system) [].
Definition config : Entry :=
  mkEntry "config" Container TSUnset up_system [config_x].
Definition state : Entry :=
  mkEntry "state" Container TSUnset up_system [state_x].
Definition system : Entry :=
  mkEntry "system" Container TSFalse [] [config; state].

End ReadOnlyPair.

(** ** The order of the ranges

    [e.Dir] is a Go map, and the loops of the package range over what
    [util.Children] and [util.FindFirstNonChoiceOrCase] yield from it.  A
    [Visit] fixes the order in which the two helpers yield the nodes; the
    functions of the package are written once more below, in module
    [Visiting], for an arbitrary visit.  [declared] is the visit in
    declaration order, the one of the definitions above. *)
Record Visit : Type := mkVisit {
  visitChildren : Entry -> list Entry;
  visitFirstNonChoiceOrCase : Entry -> list Entry
}.

Definition declared : Visit :=
  mkVisit Children FindFirstNonChoiceOrCase.

Definition reversed : Visit :=
  mkVisit (fun e => reverse (Children e))
          (fun e => reverse (FindFirstNonChoiceOrCase e)).

(** A visit yields the nodes the helpers yield, each once, in some order. *)
Definition permitted (v : Visit) : Prop :=
  forall e, visitChildren v e ≡ₚ Children e
            /\ visitFirstNonChoiceOrCase v e ≡ₚ FindFirstNonChoiceOrCase e.

Module Visiting.
Section Ranges.
Variable v : Visit.

(** [addNonChoiceChildren], its ranges in the order of the visit [v]. *)
Definition addNonChoiceChildren (m : gmap string Entry) (e : Entry)
    (errs : list string) : gmap string Entry * list string :=
  foldl (fun st n => addNewChild st.1 (Name n) n st.2) (m, errs)
        (visitFirstNonChoiceOrCase v e).

(** [addNonChoiceChildrenDuplist], its ranges in the order of the visit [v]. *)
Definition addNonChoiceChildrenDuplist (m : gmap string Entry) (e : Entry)
    (duplist : gset string) (errs : list string)
  : gmap string Entry * list string :=
  foldl (fun st n =>
           if bool_decide (Name n ∈ duplist) then st
           else addNewChild st.1 (Name n) n st.2)
        (m, errs) (visitFirstNonChoiceOrCase v e).

(** [findAllChildrenWithoutCompression], its ranges in the order of the visit [v]. *)
Definition findAllChildrenWithoutCompression (e : Entry) (excludeState : bool)
  : gmap string Entry * list string :=
  foldl (fun st child =>
           if excludeState && negb (IsConfig child) then st
           else if IsChoiceOrCase child
                then addNonChoiceChildren st.1 child st.2
                else addNewChild st.1 (Name child) child st.2)
        (∅, []) (visitChildren v e).

(** [orderedChildNames], its ranges in the order of the visit [v]. *)
Definition orderedChildNames (e : Entry) (prioData : string) : list string :=
  (if IsContainer e || IsList e
   then match DirLookup e prioData with
        | Some _ => [prioData]
        | None => []
        end
   else [])
  ++ map Name (filter (fun child => negb (String.eqb (Name child) prioData))
                      (visitChildren v e)).

(** [configStateStep], its ranges in the order of the visit [v]. *)
Definition configStateStep (c : Entry) (prioData deprioData : string)
    (st : LoopState) (configStateChild : Entry) : LoopState :=
  let added :=
    if String.eqb (Name c) deprioData then
      if IsChoiceOrCase configStateChild
      then addNonChoiceChildrenDuplist (directChildren st) configStateChild
             (prioNames st) (errs st)
      else if negb (bool_decide (Name configStateChild ∈ prioNames st))
           then addNewChild (directChildren st) (Name configStateChild)
                  configStateChild (errs st)
           else (directChildren st, errs st)
    else
      if IsChoiceOrCase configStateChild
      then addNonChoiceChildren (directChildren st) configStateChild (errs st)
      else addNewChild (directChildren st) (Name configStateChild)
             configStateChild (errs st) in
  let names :=
    if String.eqb (Name c) prioData then
      if IsChoiceOrCase configStateChild
      then foldl (fun s entry => {[Name entry]} ∪ s) (prioNames st)
             (visitFirstNonChoiceOrCase v configStateChild)
      else {[Name configStateChild]} ∪ prioNames st
    else prioNames st in
  mkLoop added.1 names added.2.

(** [childStep], its ranges in the order of the visit [v]. *)
Definition childStep (e : Entry) (excludeState : bool)
    (prioData deprioData : string) (st : LoopState) (currChild : string)
  : LoopState :=
  match DirLookup e currChild with
  | None => st
  | Some c =>
      if excludeState && negb (IsConfig c) then st
      else if IsConfigState c then
        foldl (configStateStep c prioData deprioData) st (visitChildren v c)
      else if IsDir c then
        match singletonList (visitChildren v c) with
        | Some l =>
            if negb (IsConfig l) && excludeState then st
            else withChildren st
                   (addNewChild (directChildren st) (Name l) l (errs st))
        | None =>
            if IsChoiceOrCase c
            then withChildren st
                   (addNonChoiceChildren (directChildren st) c (errs st))
            else withChildren st
                   (addNewChild (directChildren st) (Name c) c (errs st))
        end
      else
        if negb (IsList e && IsLeafRef c)
        then withChildren st
               (addNewChild (directChildren st) (Name c) c (errs st))
        else st
  end.

(** [compressedChildren], its ranges in the order of the visit [v]. *)
Definition compressedChildren (e : Entry) (excludeState : bool)
    (prioData deprioData : string) : gmap string Entry * list string :=
  let st := foldl (childStep e excludeState prioData deprioData)
                  (mkLoop ∅ ∅ []) (orderedChildNames e prioData) in
  (directChildren st, errs st).

(** [FindAllChildren], its ranges in the order of the visit [v]. *)
Definition FindAllChildren (e : Entry) (compBehaviour : CompressBehaviour)
  : gmap string Entry * list string :=
  let excludeState :=
    bool_decide (compBehaviour = ExcludeDerivedState)
    || bool_decide (compBehaviour = UncompressedExcludeDerivedState) in
  if excludeState && negb (IsConfig e) then (∅, [])
  else
    match compBehaviour with
    | Uncompressed | UncompressedExcludeDerivedState =>
        findAllChildrenWithoutCompression e excludeState
    | PreferIntendedConfig | ExcludeDerivedState =>
        compressedChildren e excludeState "config" "state"
    | PreferOperationalState =>
        compressedChildren e excludeState "state" "config"
    end.

(** [flattened], its ranges in the order of the visit [v]. *)
Definition flattened (g : Entry) : list Entry :=
  if IsChoiceOrCase g then visitFirstNonChoiceOrCase v g else [g].

(** [uncompressedCandidates], its ranges in the order of the visit [v]. *)
Definition uncompressedCandidates (e : Entry) (excludeState : bool)
  : list Entry :=
  flat_map (fun child =>
              if excludeState && negb (IsConfig child) then []
              else flattened child)
           (visitChildren v e).

(** [prioWhitelist], its ranges in the order of the visit [v]. *)
Definition prioWhitelist (e : Entry) (excludeState : bool) (prioData : string)
  : gset string :=
  if IsContainer e || IsList e then
    match DirLookup e prioData with
    | Some c =>
        if excludeState && negb (IsConfig c) then ∅
        else if IsConfigState c
             then list_to_set (map Name (flat_map flattened (visitChildren v c)))
             else ∅
    | None => ∅
    end
  else ∅.

(** [childCandidates], its ranges in the order of the visit [v]. *)
Definition childCandidates (e : Entry) (excludeState : bool)
    (deprioData : string) (W : gset string) (currChild : string)
  : list Entry :=
  match DirLookup e currChild with
  | None => []
  | Some c =>
      if excludeState && negb (IsConfig c) then []
      else if IsConfigState c then
        if String.eqb (Name c) deprioData
        then filter (fun g => Name g ∉ W) (flat_map flattened (visitChildren v c))
        else flat_map flattened (visitChildren v c)
      else if IsDir c then
        match singletonList (visitChildren v c) with
        | Some l => if negb (IsConfig l) && excludeState then [] else [l]
        | None => flattened c
        end
      else if negb (IsList e && IsLeafRef c) then [c] else []
  end.

(** [compressedCandidates], its ranges in the order of the visit [v]. *)
Definition compressedCandidates (e : Entry) (excludeState : bool)
    (prioData deprioData : string) : list Entry :=
  flat_map (childCandidates e excludeState deprioData
              (prioWhitelist e excludeState prioData))
           (orderedChildNames e prioData).

(** [candidates], its ranges in the order of the visit [v]. *)
Definition candidates (e : Entry) (p : CompressBehaviour) : list Entry :=
  if StateExcluded p && negb (IsConfig e) then []
  else
    match p with
    | Uncompressed | UncompressedExcludeDerivedState =>
        uncompressedCandidates e (StateExcluded p)
    | PreferIntendedConfig | ExcludeDerivedState =>
        compressedCandidates e (StateExcluded p) "config" "state"
    | PreferOperationalState =>
        compressedCandidates e (StateExcluded p) "state" "config"
    end.

End Ranges.
End Visiting.

(** ** The other helpers of the package *)

(** [WriteIfNotEmpty].  The [bytes.Buffer] is its content; [WriteString]
    appends to it. *)
Definition WriteIfNotEmpty (b : string) (s : string) : string :=
  if negb (Nat.eqb (String.length s) 0) then b +:+ s else b.

(** [yang.YangType], as far as [TypeDefaultValue] reads it. *)
Record YangType : Type := mkYangType { Default : string }.

(** [TypeDefaultValue]: a nil [*yang.YangType] is [None], and so is the nil
    [*string] it returns. *)
Definition TypeDefaultValue (t : option YangType) : option string :=
  match t with
  | None => None
  | Some ty =>
      if String.eqb (Default ty) EmptyString then None else Some (Default ty)
  end.

(** The order of Go strings: bytes compared one by one, a proper prefix
    first. *)
Definition stringLe (a b : string) : Prop := String.leb a b = true.

#[global] Instance stringLe_dec : RelDecision stringLe.
Proof. intros a b. unfold stringLe. apply _. Defined.

(** [sort.Strings]: the strings in increasing order. *)
Definition sortStrings (l : list string) : list string :=
  merge_sort stringLe l.

(** [GetOrderedEntryKeys], for a [range] that visits the keys of the map in
    the order [visit]: the keys are appended as they are visited, then
    sorted. *)
Definition orderedKeysVisiting (visit : list string) : list string :=
  sortStrings (foldl (fun orderedKeys key => orderedKeys ++ [key]) [] visit).

(** [GetOrderedEntryKeys], the keys visited in the order of [map_to_list]. *)
Definition GetOrderedEntryKeys (entries : gmap string Entry) : list string :=
  orderedKeysVisiting (map_to_list entries).*1.

(** * Properties *)

(** ** The duplicate guard *)

Section Guard.
Implicit Types (m : gmap string Entry) (errs : list string).
Implicit Types (cs : list Entry) (st : gmap string Entry * list string).

Lemma addNewChild_free m k v errs :
  m !! k = None -> addNewChild m k v errs = (<[k := v]> m, errs).
Proof. intros H. unfold addNewChild. by rewrite H. Qed.

Lemma addNewChild_taken m k v errs :
  is_Some (m !! k) ->
  addNewChild m k v errs = (m, errs ++ [duplicateError v]).
Proof. intros [old H]. unfold addNewChild. by rewrite H. Qed.

Lemma addAll_cons st c cs :
  addAll st (c :: cs) = addAll (addNewChild st.1 (Name c) c st.2) cs.
Proof. reflexivity. Qed.

Lemma addAll_app st cs1 cs2 :
  addAll st (cs1 ++ cs2) = addAll (addAll st cs1) cs2.
Proof. unfold addAll. apply foldl_app. Qed.

Lemma firstNamed_cons k c cs :
  firstNamed k (c :: cs) =
  if String.eqb (Name c) k then Some c else firstNamed k cs.
Proof. reflexivity. Qed.

(** First writer wins: a name is bound to what it was bound to before, or
    to the first candidate that carries it. *)
Lemma addAll_lookup cs : forall st k,
  (addAll st cs).1 !! k =
  match st.1 !! k with
  | Some v => Some v
  | None => firstNamed k cs
  end.
Proof.
  induction cs as [|c cs IH]; intros [m errs] k.
  - simpl. by destruct (m !! k).
  - rewrite addAll_cons, IH, firstNamed_cons. simpl.
    unfold addNewChild. destruct (m !! Name c) as [old|] eqn:Hc; simpl.
    + destruct (String.eqb_spec (Name c) k) as [Heq|Hne]; [|done].
      by rewrite <- Heq, Hc.
    + destruct (String.eqb_spec (Name c) k) as [Heq|Hne].
      * by rewrite <- Heq, lookup_insert_eq, Hc.
      * by rewrite lookup_insert_ne.
Qed.

(** Every turned-down candidate leaves its error, in order. *)
Lemma addAll_errs cs : forall st,
  (addAll st cs).2 = st.2 ++ map duplicateError (rejected (dom st.1) cs).
Proof.
  induction cs as [|c cs IH]; intros [m errs].
  - simpl. by rewrite app_nil_r.
  - rewrite addAll_cons, IH. simpl.
    unfold addNewChild. destruct (m !! Name c) as [old|] eqn:Hc; simpl.
    + rewrite bool_decide_eq_true_2 by (apply elem_of_dom; eauto).
      simpl. by rewrite <- app_assoc.
    + rewrite bool_decide_eq_false_2 by (by apply not_elem_of_dom).
      by rewrite dom_insert_L.
Qed.

(** Every candidate is inserted or turned down. *)
Lemma addAll_count cs : forall st,
  size (addAll st cs).1 + length (addAll st cs).2 =
  size st.1 + length st.2 + length cs.
Proof.
  induction cs as [|c cs IH]; intros [m errs].
  - simpl. lia.
  - rewrite addAll_cons, IH. simpl.
    unfold addNewChild. destruct (m !! Name c) as [old|] eqn:Hc; simpl.
    + rewrite length_app. simpl. lia.
    + rewrite map_size_insert_None by done. lia.
Qed.

Lemma firstNamed_Some k cs v :
  firstNamed k cs = Some v -> v ∈ cs /\ Name v = k.
Proof.
  unfold firstNamed. intros H. apply find_some in H as [Hin Heq].
  split; [by apply list_elem_of_In | by apply String.eqb_eq].
Qed.

Lemma firstNamed_None k cs :
  firstNamed k cs = None -> forall v, v ∈ cs -> Name v <> k.
Proof.
  unfold firstNamed. intros H v Hin Heq.
  apply list_elem_of_In in Hin.
  pose proof (find_none _ _ H v Hin) as Hf. simpl in Hf.
  apply String.eqb_neq in Hf. done.
Qed.

Lemma firstNamed_is_Some k cs v :
  v ∈ cs -> Name v = k -> is_Some (firstNamed k cs).
Proof.
  intros Hin Heq. destruct (firstNamed k cs) eqn:H; [eauto|].
  by destruct (firstNamed_None _ _ H v Hin).
Qed.

Lemma rejected_elem seen cs v : v ∈ rejected seen cs -> v ∈ cs.
Proof.
  revert seen. induction cs as [|c cs IH]; intros seen; simpl.
  - done.
  - case_bool_decide as Hseen.
    + intros [->|Hr]%elem_of_cons; [left | right; eauto].
    + intros Hr. right. eauto.
Qed.

(** A candidate is the entry of its name, or its error is reported. *)
Lemma rejected_or_first cs : forall seen v,
  v ∈ cs ->
  ((Name v ∉ seen) /\ firstNamed (Name v) cs = Some v) \/ v ∈ rejected seen cs.
Proof.
  induction cs as [|c cs IH]; intros seen v Hin.
  - by apply elem_of_nil in Hin.
  - cbn [rejected]. rewrite firstNamed_cons.
    apply elem_of_cons in Hin as [->|Hin].
    + case_bool_decide; [right; left|].
      left. by rewrite String.eqb_refl.
    + case_bool_decide as Hseen.
      * destruct (IH seen v Hin) as [[Hn Hf]|Hr]; [|right; by right].
        destruct (String.eqb_spec (Name c) (Name v)) as [Heq|Hne].
        -- rewrite Heq in Hseen. done.
        -- by left.
      * destruct (IH ({[Name c]} ∪ seen) v Hin) as [[Hn Hf]|Hr];
          [|by right].
        left. split; [set_solver|].
        destruct (String.eqb_spec (Name c) (Name v)) as [Heq|Hne];
          [set_solver | done].
Qed.

Lemma addNonChoiceChildren_addAll m e errs :
  addNonChoiceChildren m e errs =
  addAll (m, errs) (FindFirstNonChoiceOrCase e).
Proof. reflexivity. Qed.

Lemma addNonChoiceChildrenDuplist_addAll m e duplist errs :
  addNonChoiceChildrenDuplist m e duplist errs =
  addAll (m, errs)
    (filter (fun n => Name n ∉ duplist) (FindFirstNonChoiceOrCase e)).
Proof.
  unfold addNonChoiceChildrenDuplist, addAll.
  generalize (m, errs). induction (FindFirstNonChoiceOrCase e) as [|n l IH];
    intros st; [done|].
  simpl. rewrite filter_cons. case_bool_decide as Hn.
  - rewrite decide_False by (intros Hc; by apply Hc). apply IH.
  - rewrite decide_True by done. simpl. apply IH.
Qed.

End Guard.

(** ** The loops of the code offer exactly the candidates *)

Lemma DirLookup_Some e name c :
  DirLookup e name = Some c -> c ∈ Dir e /\ Name c = name.
Proof.
  unfold DirLookup. intros H. apply find_some in H as [Hin Heq].
  split; [by apply list_elem_of_In | by apply String.eqb_eq].
Qed.

Lemma flat_map_cons {A B} (f : A -> list B) x l :
  flat_map f (x :: l) = f x ++ flat_map f l.
Proof. reflexivity. Qed.

Lemma loop_state_eta st :
  mkLoop (directChildren st) (prioNames st) (errs st) = st.
Proof. by destruct st. Qed.

Lemma findAllChildrenWithoutCompression_addAll e excludeState :
  findAllChildrenWithoutCompression e excludeState =
  addAll (∅, []) (uncompressedCandidates e excludeState).
Proof.
  unfold findAllChildrenWithoutCompression, uncompressedCandidates.
  generalize ((∅, []) : gmap string Entry * list string).
  induction (Children e) as [|c l IH]; intros st; [done|].
  rewrite flat_map_cons, addAll_app, <- IH. simpl. f_equal.
  destruct (excludeState && negb (IsConfig c)); [done|].
  unfold flattened. destruct (IsChoiceOrCase c); by destruct st.
Qed.

Lemma record_names (l : list Entry) (W : gset string) :
  foldl (fun s entry => {[Name entry]} ∪ s) W l = list_to_set (map Name l) ∪ W.
Proof.
  revert W. induction l as [|x l IH]; intros W; simpl.
  - set_solver.
  - rewrite IH. set_solver.
Qed.

Section Compressed.
Variables (e : Entry) (excludeState : bool) (prioData deprioData : string).
Hypothesis prio_deprio : prioData <> deprioData.

Local Abbreviation step := (childStep e excludeState prioData deprioData).
Local Abbreviation inner c := (configStateStep c prioData deprioData).

(** The children of the deprioritized container: the whitelist filters the
    candidates and is left as it is. *)
Lemma configState_deprio c gs : Name c = deprioData -> forall st,
  foldl (inner c) st gs =
  withChildren st
    (addAll (directChildren st, errs st)
       (filter (fun g => Name g ∉ prioNames st) (flat_map flattened gs))).
Proof.
  intros Hc. induction gs as [|g gs IH]; intros st.
  - simpl. apply eq_sym, loop_state_eta.
  - simpl foldl. rewrite IH, flat_map_cons, filter_app, addAll_app.
    unfold configStateStep, withChildren. rewrite Hc, String.eqb_refl.
    assert (String.eqb deprioData prioData = false) as ->
      by (apply String.eqb_neq; congruence).
    simpl.
    assert ((if IsChoiceOrCase g
             then addNonChoiceChildrenDuplist (directChildren st) g
                    (prioNames st) (errs st)
             else if negb (bool_decide (Name g ∈ prioNames st))
                  then addNewChild (directChildren st) (Name g) g (errs st)
                  else (directChildren st, errs st))
            = addAll (directChildren st, errs st)
                (filter (fun g => Name g ∉ prioNames st) (flattened g)))
      as ->.
    { unfold flattened. destruct (IsChoiceOrCase g).
      - apply addNonChoiceChildrenDuplist_addAll.
      - rewrite filter_cons, filter_nil. case_bool_decide; simpl.
        + by rewrite decide_False by tauto.
        + by rewrite decide_True by done. }
    by destruct (addAll (directChildren st, errs st) _).
Qed.

(** The children of the other config/state container: every candidate is
    offered, and its name recorded when the container is the prioritized
    one. *)
Lemma configState_other c gs : Name c <> deprioData -> forall st,
  foldl (inner c) st gs =
  mkLoop (addAll (directChildren st, errs st) (flat_map flattened gs)).1
    (if String.eqb (Name c) prioData
     then list_to_set (map Name (flat_map flattened gs)) ∪ prioNames st
     else prioNames st)
    (addAll (directChildren st, errs st) (flat_map flattened gs)).2.
Proof.
  intros Hc. apply String.eqb_neq in Hc.
  induction gs as [|g gs IH]; intros st.
  - simpl. destruct (String.eqb (Name c) prioData); destruct st; simpl;
      f_equal; set_solver.
  - simpl foldl. rewrite IH, flat_map_cons, addAll_app.
    unfold configStateStep. rewrite Hc. simpl.
    assert ((if IsChoiceOrCase g
             then addNonChoiceChildren (directChildren st) g (errs st)
             else addNewChild (directChildren st) (Name g) g (errs st))
            = addAll (directChildren st, errs st) (flattened g)) as ->.
    { unfold flattened. by destruct (IsChoiceOrCase g). }
    destruct (addAll (directChildren st, errs st) (flattened g))
      as [m1 errs1] eqn:Hadd. simpl.
    f_equal. destruct (String.eqb (Name c) prioData); [|done].
    rewrite map_app, list_to_set_app_L.
    unfold flattened at 2. destruct (IsChoiceOrCase g).
    + rewrite record_names. set_solver.
    + simpl. set_solver.
Qed.

Lemma withChildren_id st : withChildren st (directChildren st, errs st) = st.
Proof. by destruct st. Qed.

(** A scheduled child other than the prioritized container offers its
    candidates and leaves the whitelist as it is. *)
Lemma childStep_other st name : name <> prioData ->
  step st name =
  withChildren st
    (addAll (directChildren st, errs st)
       (childCandidates e excludeState deprioData (prioNames st) name)).
Proof.
  intros Hname. unfold childStep, childCandidates.
  destruct (DirLookup e name) as [c|] eqn:Hlook;
    [|by rewrite withChildren_id].
  apply DirLookup_Some in Hlook as [_ Hc].
  destruct (excludeState && negb (IsConfig c)); [by rewrite withChildren_id|].
  destruct (IsConfigState c).
  { destruct (String.eqb_spec (Name c) deprioData) as [Hd|Hd].
    - by apply configState_deprio.
    - rewrite configState_other by done.
      assert (String.eqb (Name c) prioData = false) as ->
        by (apply String.eqb_neq; congruence).
      done. }
  destruct (IsDir c).
  { destruct (singletonList (Children c)) as [l|].
    - destruct (negb (IsConfig l) && excludeState);
        [by rewrite withChildren_id | done].
    - unfold flattened. by destruct (IsChoiceOrCase c). }
  destruct (negb (IsList e && IsLeafRef c));
    [done | by rewrite withChildren_id].
Qed.

(** The prioritized container, scheduled first: its candidates are offered
    whatever the whitelist, and their names recorded. *)
Lemma childStep_prio W :
  step (mkLoop ∅ ∅ []) prioData =
  mkLoop
    (addAll (∅, []) (childCandidates e excludeState deprioData W prioData)).1
    (match DirLookup e prioData with
     | Some c =>
         if excludeState && negb (IsConfig c) then ∅
         else if IsConfigState c
              then list_to_set (map Name (flat_map flattened (Children c)))
              else ∅
     | None => ∅
     end)
    (addAll (∅, []) (childCandidates e excludeState deprioData W prioData)).2.
Proof.
  unfold childStep, childCandidates.
  destruct (DirLookup e prioData) as [c|] eqn:Hlook; [|done].
  apply DirLookup_Some in Hlook as [_ Hc].
  destruct (excludeState && negb (IsConfig c)); [done|].
  destruct (IsConfigState c).
  { assert (Name c <> deprioData) as Hd by congruence.
    rewrite configState_other by done.
    apply String.eqb_neq in Hd. rewrite Hd, Hc, String.eqb_refl. simpl.
    by rewrite (right_id_L ∅ (∪)). }
  destruct (IsDir c).
  { destruct (singletonList (Children c)) as [l|].
    - by destruct (negb (IsConfig l) && excludeState).
    - unfold flattened. by destruct (IsChoiceOrCase c). }
  by destruct (negb (IsList e && IsLeafRef c)).
Qed.

Lemma loop_other names : Forall (fun name => name <> prioData) names ->
  forall st,
  foldl step st names =
  withChildren st
    (addAll (directChildren st, errs st)
       (flat_map (childCandidates e excludeState deprioData (prioNames st))
                 names)).
Proof.
  induction 1 as [|name names Hname _ IH]; intros st.
  - by rewrite withChildren_id.
  - simpl foldl. rewrite IH, childStep_other by done.
    rewrite flat_map_cons, addAll_app. unfold withChildren. simpl.
    by destruct (addAll (directChildren st, errs st) _).
Qed.

Lemma other_names :
  Forall (fun name => name <> prioData)
    (map Name (filter (fun child => negb (String.eqb (Name child) prioData))
                      (Children e))).
Proof.
  apply Forall_forall. intros name Hin.
  apply list_elem_of_fmap in Hin as (c & -> & Hc).
  apply list_elem_of_filter in Hc as [Hc _].
  apply negb_prop_elim in Hc. intros Heq. apply Hc.
  apply Is_true_eq_left. by apply String.eqb_eq.
Qed.

(** The compressed loop is the guard applied to the candidates. *)
Lemma compressedChildren_addAll :
  compressedChildren e excludeState prioData deprioData =
  addAll (∅, []) (compressedCandidates e excludeState prioData deprioData).
Proof.
  unfold compressedChildren, compressedCandidates, orderedChildNames,
    prioWhitelist.
  rewrite foldl_app, flat_map_app.
  destruct (IsContainer e || IsList e).
  - destruct (DirLookup e prioData) as [c|] eqn:Hlook.
    + simpl foldl. rewrite loop_other by apply other_names.
      rewrite (childStep_prio
                 (if excludeState && negb (IsConfig c) then ∅
                  else if IsConfigState c
                       then list_to_set
                              (map Name (flat_map flattened (Children c)))
                       else ∅)).
      rewrite Hlook. simpl. rewrite <- !surjective_pairing.
      by rewrite app_nil_r, addAll_app.
    + simpl foldl. rewrite loop_other by apply other_names. simpl.
      by rewrite <- surjective_pairing.
  - simpl foldl. rewrite loop_other by apply other_names. simpl.
    by rewrite <- surjective_pairing.
Qed.

End Compressed.

Lemma excludeState_StateExcluded p :
  bool_decide (p = ExcludeDerivedState)
  || bool_decide (p = UncompressedExcludeDerivedState) = StateExcluded p.
Proof. by destruct p. Qed.

(** [FindAllChildren] is the duplicate guard applied, from the empty mapping
    and no error, to the candidates of the call. *)
Lemma FindAllChildren_addAll e p :
  FindAllChildren e p = addAll (∅, []) (candidates e p).
Proof.
  unfold FindAllChildren, candidates. rewrite excludeState_StateExcluded.
  destruct (StateExcluded p && negb (IsConfig e)); [done|].
  destruct p; first [apply findAllChildrenWithoutCompression_addAll
                    | by apply compressedChildren_addAll].
Qed.


(** The lookup [e.Dir[currChild]] of the loop never misses: the scheduled
    names are names of declared children. *)
Lemma orderedChildNames_declared e prio name :
  name ∈ orderedChildNames e prio ->
  exists c, DirLookup e name = Some c /\ Name c = name.
Proof.
  unfold orderedChildNames. intros [Hhead|Hrest]%elem_of_app.
  - destruct (IsContainer e || IsList e); [|by apply elem_of_nil in Hhead].
    destruct (DirLookup e prio) as [c|] eqn:Hc;
      [|by apply elem_of_nil in Hhead].
    apply list_elem_of_singleton in Hhead as ->.
    exists c. split; [done|]. by apply DirLookup_Some in Hc as [_ ?].
  - apply list_elem_of_fmap in Hrest as (c & -> & Hc).
    apply list_elem_of_filter in Hc as [_ Hc].
    destruct (DirLookup e (Name c)) as [c'|] eqn:Hlook.
    + exists c'. split; [done|]. by apply DirLookup_Some in Hlook as [_ ?].
    + unfold DirLookup in Hlook. apply list_elem_of_In in Hc.
      pose proof (find_none _ _ Hlook c Hc) as Hmiss. simpl in Hmiss.
      by rewrite String.eqb_refl in Hmiss.
Qed.

(** ** Where the candidates come from *)

Lemma findFirstNonChoiceOrCaseInternal_eq e :
  findFirstNonChoiceOrCaseInternal e =
  if IsChoiceOrCase e
  then flat_map findFirstNonChoiceOrCaseInternal (Dir e)
  else [e].
Proof. by destruct e. Qed.

Lemma elem_of_flat_map {A B} (f : A -> list B) (l : list A) (y : B) :
  y ∈ flat_map f l <-> exists x, x ∈ l /\ y ∈ f x.
Proof.
  rewrite list_elem_of_In, in_flat_map.
  split; intros (x & Hx & Hy); exists x;
    by rewrite ?list_elem_of_In in *.
Qed.

Lemma findFirstInternal_not_wrapper e v :
  v ∈ findFirstNonChoiceOrCaseInternal e -> IsChoiceOrCase v = false.
Proof.
  revert v. induction e as [e IH] using Entry_tree_ind. intros v.
  rewrite findFirstNonChoiceOrCaseInternal_eq.
  destruct (IsChoiceOrCase e) eqn:He.
  - intros (c & Hc & Hv)%elem_of_flat_map.
    rewrite Forall_forall in IH. by apply (IH c Hc).
  - intros ->%list_elem_of_singleton. done.
Qed.

Lemma FindFirstNonChoiceOrCase_not_wrapper e v :
  v ∈ FindFirstNonChoiceOrCase e -> IsChoiceOrCase v = false.
Proof.
  intros (c & Hc & Hv)%elem_of_flat_map.
  by apply (findFirstInternal_not_wrapper c).
Qed.

Lemma flattened_not_wrapper g v : v ∈ flattened g -> IsChoiceOrCase v = false.
Proof.
  unfold flattened. destruct (IsChoiceOrCase g) eqn:Hg.
  - apply FindFirstNonChoiceOrCase_not_wrapper.
  - by intros ->%list_elem_of_singleton.
Qed.

Lemma uncompressedCandidates_inv e excludeState v :
  v ∈ uncompressedCandidates e excludeState ->
  exists c, c ∈ Children e
            /\ excludeState && negb (IsConfig c) = false
            /\ v ∈ flattened c.
Proof.
  intros (c & Hc & Hv)%elem_of_flat_map. exists c.
  destruct (excludeState && negb (IsConfig c)); [by apply elem_of_nil in Hv|].
  done.
Qed.

(** The four ways in which a scheduled child [c] offers a candidate [v]. *)
Lemma childCandidates_inv e excludeState deprio W name v :
  v ∈ childCandidates e excludeState deprio W name ->
  exists c,
    DirLookup e name = Some c
    /\ excludeState && negb (IsConfig c) = false
    /\ ((IsConfigState c = true
         /\ v ∈ flat_map flattened (Children c)
         /\ (Name c = deprio -> Name v ∉ W))
        \/ (IsConfigState c = false /\ IsDir c = true
            /\ singletonList (Children c) = Some v
            /\ negb (IsConfig v) && excludeState = false)
        \/ (IsConfigState c = false /\ IsDir c = true
            /\ singletonList (Children c) = None /\ v ∈ flattened c)
        \/ (IsConfigState c = false /\ IsDir c = false /\ v = c
            /\ IsList e && IsLeafRef c = false)).
Proof.
  unfold childCandidates.
  destruct (DirLookup e name) as [c|]; [|by intros ?%elem_of_nil].
  intros Hv. exists c. split; [done|].
  destruct (excludeState && negb (IsConfig c)); [by apply elem_of_nil in Hv|].
  split; [done|].
  destruct (IsConfigState c).
  { left. split; [done|].
    destruct (String.eqb_spec (Name c) deprio) as [Hd|Hd].
    - apply list_elem_of_filter in Hv as [HW Hv]. done.
    - done. }
  right. destruct (IsDir c).
  { destruct (singletonList (Children c)) as [l|].
    - left. destruct (negb (IsConfig l) && excludeState) eqn:Hl;
        [by apply elem_of_nil in Hv|].
      apply list_elem_of_singleton in Hv as ->. done.
    - right. left. done. }
  right. right.
  destruct (IsList e && IsLeafRef c); simpl in Hv;
    [by apply elem_of_nil in Hv|].
  apply list_elem_of_singleton in Hv as ->. done.
Qed.

Lemma compressedCandidates_inv e excludeState prio deprio v :
  v ∈ compressedCandidates e excludeState prio deprio ->
  exists name,
    name ∈ orderedChildNames e prio
    /\ v ∈ childCandidates e excludeState deprio
             (prioWhitelist e excludeState prio) name.
Proof. by intros H%elem_of_flat_map. Qed.

Lemma singletonList_Some gs l :
  singletonList gs = Some l -> gs = [l] /\ IsList l = true.
Proof.
  destruct gs as [|x [|y gs]]; simpl; try done.
  destruct (IsList x) eqn:Hx; [|done]. by intros [= ->].
Qed.

Lemma IsList_not_wrapper l : IsList l = true -> IsChoiceOrCase l = false.
Proof. unfold IsList, IsChoiceOrCase. by destruct (Kind l). Qed.

Lemma not_dir_not_wrapper c : IsDir c = false -> IsChoiceOrCase c = false.
Proof. unfold IsDir, IsChoiceOrCase. by destruct (Kind c). Qed.

Lemma candidates_not_wrapper e p v :
  v ∈ candidates e p -> IsChoiceOrCase v = false.
Proof.
  unfold candidates.
  destruct (StateExcluded p && negb (IsConfig e)); [by intros ?%elem_of_nil|].
  assert (forall x prio deprio,
             v ∈ compressedCandidates e x prio deprio ->
             IsChoiceOrCase v = false) as Hcompressed.
  { intros x prio deprio (name & _ & Hv)%compressedCandidates_inv.
    apply childCandidates_inv in Hv
      as (c & _ & _ & [(_ & Hv & _)|[(_ & _ & Hv & _)|[(_ & _ & _ & Hv)
                                                      |(_ & Hc & -> & _)]]]).
    - apply elem_of_flat_map in Hv as (g & _ & Hv).
      by apply (flattened_not_wrapper g).
    - apply singletonList_Some in Hv as [_ Hl]. by apply IsList_not_wrapper.
    - by apply (flattened_not_wrapper c).
    - by apply not_dir_not_wrapper. }
  destruct p; eauto.
  all: intros (c & _ & _ & Hv)%uncompressedCandidates_inv;
    by apply (flattened_not_wrapper c).
Qed.

(** An entry of the result was there before or is a candidate of its name. *)
Lemma addAll_provenance st cs k v :
  (addAll st cs).1 !! k = Some v ->
  st.1 !! k = Some v \/ (v ∈ cs /\ Name v = k).
Proof.
  rewrite addAll_lookup. destruct (st.1 !! k); [by left|].
  intros H%firstNamed_Some. by right.
Qed.

Lemma FindAllChildren_lookup e p k :
  (FindAllChildren e p).1 !! k = firstNamed k (candidates e p).
Proof. by rewrite FindAllChildren_addAll, addAll_lookup. Qed.

Lemma FindAllChildren_candidate e p k v :
  (FindAllChildren e p).1 !! k = Some v -> v ∈ candidates e p /\ Name v = k.
Proof. rewrite FindAllChildren_lookup. apply firstNamed_Some. Qed.

(** ** A node without its prioritized child *)

Lemma flat_map_ext_elem {A B} (f g : A -> list B) (l : list A) :
  (forall x, x ∈ l -> f x = g x) -> flat_map f l = flat_map g l.
Proof.
  induction l as [|x l IH]; intros H; [done|].
  rewrite !flat_map_cons, (H x) by left. f_equal. apply IH.
  intros y Hy. apply H. by right.
Qed.

Lemma DirLookup_withoutChild dropped e name :
  name <> dropped ->
  DirLookup (withoutChild dropped e) name = DirLookup e name.
Proof.
  intros Hname. unfold DirLookup, withoutChild. simpl.
  induction (Dir e) as [|c l IH]; [done|].
  rewrite filter_cons. simpl. case_decide as Hc.
  - simpl. by rewrite IH.
  - rewrite IH.
    assert (String.eqb (Name c) name = false) as ->
      by (apply String.eqb_neq; congruence).
    done.
Qed.

Lemma other_children_withoutChild prio (l : list Entry) :
  filter (fun child => negb (String.eqb (Name child) prio))
         (filter (fun c => Name c <> prio) l)
  = filter (fun child => negb (String.eqb (Name child) prio)) l.
Proof.
  induction l as [|c l IH]; [done|].
  rewrite (filter_cons (fun c => Name c <> prio)).
  case_decide as Hc.
  - rewrite !filter_cons, IH. done.
  - rewrite IH, filter_cons.
    rewrite decide_False; [done|].
    rewrite Hc, String.eqb_refl. simpl. tauto.
Qed.

Lemma compressedCandidates_withoutChild e excludeState prio deprio :
  IsContainer e || IsList e = false ->
  compressedCandidates (withoutChild prio e) excludeState prio deprio
  = compressedCandidates e excludeState prio deprio.
Proof.
  intros He. unfold compressedCandidates, prioWhitelist, orderedChildNames.
  change (IsContainer (withoutChild prio e)) with (IsContainer e).
  change (IsList (withoutChild prio e)) with (IsList e).
  rewrite He. simpl app.
  change (Children (withoutChild prio e))
    with (filter (fun c => Name c <> prio) (Dir e)).
  rewrite other_children_withoutChild.
  apply flat_map_ext_elem. intros name Hname.
  assert (name <> prio) as Hne.
  { pose proof (other_names e prio) as Hall. rewrite Forall_forall in Hall.
    by apply Hall. }
  unfold childCandidates. rewrite DirLookup_withoutChild by done.
  done.
Qed.

Lemma candidates_compressed e p :
  CompressEnabled p = true ->
  candidates e p =
  if StateExcluded p && negb (IsConfig e) then []
  else compressedCandidates e (StateExcluded p) (prioData p) (deprioData p).
Proof.
  intros Hp. unfold candidates.
  destruct (StateExcluded p && negb (IsConfig e)); [done|].
  by destruct p.
Qed.

(** ** Well-linked trees: a node is told apart by its ancestors *)

Lemma linked_eq up e :
  linked up e =
  bool_decide (Parent e = up)
  && forallb (linked (mkAncestor (Name e) (Config e) :: up)) (Dir e).
Proof. by destruct e. Qed.

Lemma linked_Parent up e : linked up e = true -> Parent e = up.
Proof.
  rewrite linked_eq. intros [H _]%andb_true_iff.
  by apply bool_decide_eq_true in H.
Qed.

Lemma linked_child up e c :
  linked up e = true -> c ∈ Dir e ->
  linked (mkAncestor (Name e) (Config e) :: up) c = true.
Proof.
  rewrite linked_eq. intros [_ H]%andb_true_iff Hc.
  rewrite forallb_forall in H. apply H. by apply list_elem_of_In.
Qed.

(** What a branch flattens to lies at the branch or below it. *)
Lemma findFirstInternal_below g : forall up v,
  linked up g = true -> v ∈ findFirstNonChoiceOrCaseInternal g ->
  suffix up (Parent v).
Proof.
  induction g as [g IH] using Entry_tree_ind. intros up v Hg.
  rewrite findFirstNonChoiceOrCaseInternal_eq.
  destruct (IsChoiceOrCase g).
  - intros (c & Hc & Hv)%elem_of_flat_map.
    rewrite Forall_forall in IH.
    pose proof (IH c Hc _ v (linked_child _ _ _ Hg Hc) Hv) as Hsuf.
    eapply suffix_cons_l, Hsuf.
  - intros ->%list_elem_of_singleton.
    by rewrite (linked_Parent _ _ Hg).
Qed.

Lemma FindFirstNonChoiceOrCase_below up c v :
  linked up c = true -> v ∈ FindFirstNonChoiceOrCase c ->
  suffix (mkAncestor (Name c) (Config c) :: up) (Parent v).
Proof.
  intros Hc (g & Hg & Hv)%elem_of_flat_map.
  eapply findFirstInternal_below; [|done]. by apply linked_child.
Qed.

Lemma flattened_below up g v :
  linked up g = true -> v ∈ flattened g -> suffix up (Parent v).
Proof.
  intros Hg. unfold flattened. destruct (IsChoiceOrCase g).
  - intros Hv. eapply suffix_cons_l, FindFirstNonChoiceOrCase_below; done.
  - intros ->%list_elem_of_singleton. by rewrite (linked_Parent _ _ Hg).
Qed.

(** What a child [c] of [e] offers from among its own descendants. *)
Lemma grandchild_below up c v :
  linked up c = true -> v ∈ flat_map flattened (Children c) ->
  suffix (mkAncestor (Name c) (Config c) :: up) (Parent v).
Proof.
  intros Hc (g & Hg & Hv)%elem_of_flat_map.
  eapply flattened_below; [|done]. by apply linked_child.
Qed.

Lemma not_below_sibling up a d :
  linked up d = true -> suffix (a :: up) (Parent d) -> False.
Proof.
  intros Hd%linked_Parent Hsuf%suffix_length. rewrite Hd in Hsuf.
  simpl in Hsuf. lia.
Qed.

Lemma IsDir_not_leafref c : IsDir c = true -> IsLeafRef c = false.
Proof. unfold IsDir, IsLeafRef. by destruct (Kind c). Qed.

Lemma IsList_IsDir l : IsList l = true -> IsDir l = true.
Proof. unfold IsList, IsDir. by destruct (Kind l). Qed.

Lemma IsChoiceOrCase_IsDir c : IsChoiceOrCase c = true -> IsDir c = true.
Proof. unfold IsChoiceOrCase, IsDir. by destruct (Kind c). Qed.

(** A declared child [d] of a well-linked node is a candidate of a compressed
    call only as itself (a leaf, or a directory that is not unwrapped). *)
Lemma declared_child_candidate e excludeState prio deprio d :
  wellLinked e = true -> d ∈ Dir e ->
  d ∈ compressedCandidates e excludeState prio deprio ->
  exists name,
    DirLookup e name = Some d /\ IsConfigState d = false
    /\ ((IsDir d = true /\ singletonList (Children d) = None
         /\ IsChoiceOrCase d = false)
        \/ (IsDir d = false /\ IsList e && IsLeafRef d = false)).
Proof.
  intros Hwf Hd (name & _ & Hv)%compressedCandidates_inv.
  pose proof (linked_child _ _ _ Hwf Hd) as Hld.
  apply childCandidates_inv in Hv as (c & Hlook & _ & Hcase).
  pose proof (DirLookup_Some _ _ _ Hlook) as [Hc _].
  pose proof (linked_child _ _ _ Hwf Hc) as Hlc.
  destruct Hcase as [(_ & Hv & _)|[(_ & _ & Hv & _)|[(Hcs & Hdir & Hs & Hv)
                                                    |(Hcs & Hdir & -> & Hl)]]].
  - destruct (not_below_sibling _ _ _ Hld (grandchild_below _ _ _ Hlc Hv)).
  - apply singletonList_Some in Hv as [Hv _].
    assert (d ∈ Dir c) as Hdc by (change (Dir c) with (Children c);
                                  rewrite Hv; left).
    pose proof (linked_child _ _ _ Hlc Hdc) as Hld'.
    apply linked_Parent in Hld, Hld'. rewrite Hld in Hld'.
    apply (f_equal length) in Hld'. simpl in Hld'. lia.
  - unfold flattened in Hv. destruct (IsChoiceOrCase c) eqn:Hw.
    + destruct (not_below_sibling _ _ _ Hld
                  (FindFirstNonChoiceOrCase_below _ _ _ Hlc Hv)).
    + apply list_elem_of_singleton in Hv as ->. exists name. eauto 10.
  - exists name. eauto 10.
Qed.

(** ** What a candidate becomes *)

Lemma candidate_resolved e p v :
  v ∈ candidates e p ->
  is_Some ((FindAllChildren e p).1 !! Name v)
  /\ ((FindAllChildren e p).1 !! Name v = Some v
      \/ duplicateError v ∈ (FindAllChildren e p).2).
Proof.
  intros Hv. rewrite FindAllChildren_lookup.
  split; [by apply (firstNamed_is_Some _ _ v)|].
  destruct (rejected_or_first (candidates e p) ∅ v Hv) as [[_ Hf]|Hr];
    [by left|right].
  rewrite FindAllChildren_addAll, addAll_errs. simpl. rewrite dom_empty_L.
  by apply list_elem_of_fmap_2.
Qed.

Lemma compressed_policy_names p :
  CompressEnabled p = true ->
  prioData p <> deprioData p
  /\ (prioData p = "config" \/ prioData p = "state")
  /\ (deprioData p = "config" \/ deprioData p = "state").
Proof. destruct p; try discriminate; intros _; repeat split; auto. Qed.

Lemma not_config_state_name c name :
  IsContainer c = true -> IsConfigState c = false ->
  name = "config" \/ name = "state" -> Name c <> name.
Proof.
  unfold IsConfigState. intros -> Hcs Hname Heq. simpl in Hcs.
  apply orb_false_iff in Hcs as [Hc Hs].
  apply String.eqb_neq in Hc, Hs. destruct Hname; congruence.
Qed.

Lemma other_child_scheduled e prio c :
  c ∈ Children e -> Name c <> prio -> Name c ∈ orderedChildNames e prio.
Proof.
  intros Hc Hne. unfold orderedChildNames. apply elem_of_app. right.
  apply list_elem_of_fmap_2, list_elem_of_filter. split; [|done].
  apply negb_prop_intro. intros Heq%Is_true_eq_true. by apply String.eqb_eq in Heq.
Qed.

Lemma prio_child_scheduled e prio c :
  IsContainer e || IsList e = true -> DirLookup e prio = Some c ->
  prio ∈ orderedChildNames e prio.
Proof.
  intros He Hc. unfold orderedChildNames. rewrite He, Hc.
  apply elem_of_app. left. left.
Qed.

(** ** A child that offers nothing can be left out *)

Lemma flat_map_filter_silent {A B} (f g : A -> list B) (P : A -> Prop)
    `{forall x, Decision (P x)} (l : list A) :
  (forall x, x ∈ l -> P x -> g x = f x) ->
  (forall x, x ∈ l -> ~ P x -> f x = []) ->
  flat_map g (filter P l) = flat_map f l.
Proof.
  induction l as [|x l IH]; intros Hkeep Hdrop; [done|].
  rewrite filter_cons, flat_map_cons.
  assert (flat_map g (filter P l) = flat_map f l) as Htail.
  { apply IH; intros y Hy; [apply Hkeep | apply Hdrop]; by right. }
  case_decide as Hx.
  - rewrite flat_map_cons, Htail, (Hkeep x) by (done || left). done.
  - rewrite Htail, (Hdrop x) by (done || left). done.
Qed.

Lemma other_names_withoutChild prio dropped (l : list Entry) :
  map Name (filter (fun child => negb (String.eqb (Name child) prio))
                   (filter (fun c => Name c <> dropped) l))
  = filter (fun name => name <> dropped)
      (map Name (filter (fun child => negb (String.eqb (Name child) prio)) l)).
Proof.
  induction l as [|c l IH]; [done|].
  rewrite (filter_cons (fun c => Name c <> dropped)).
  rewrite (filter_cons (fun child => _) c l).
  case_decide as Hd; case_decide as Hp.
  - rewrite filter_cons, decide_True by done. simpl.
    rewrite filter_cons, decide_True by done. by rewrite IH.
  - rewrite filter_cons, decide_False by done. done.
  - simpl. rewrite filter_cons, decide_False by tauto. done.
  - done.
Qed.

Lemma orderedChildNames_withoutChild e prio dropped :
  dropped <> prio ->
  orderedChildNames (withoutChild dropped e) prio
  = filter (fun name => name <> dropped) (orderedChildNames e prio).
Proof.
  intros Hne. unfold orderedChildNames.
  change (IsContainer (withoutChild dropped e)) with (IsContainer e).
  change (IsList (withoutChild dropped e)) with (IsList e).
  rewrite DirLookup_withoutChild by done.
  change (Children (withoutChild dropped e))
    with (filter (fun c => Name c <> dropped) (Dir e)).
  rewrite other_names_withoutChild, filter_app. f_equal.
  destruct (IsContainer e || IsList e); [|done].
  destruct (DirLookup e prio); [|done].
  rewrite filter_cons, decide_True by done. done.
Qed.

Lemma prioWhitelist_withoutChild e excludeState prio dropped :
  dropped <> prio ->
  prioWhitelist (withoutChild dropped e) excludeState prio
  = prioWhitelist e excludeState prio.
Proof.
  intros Hne. unfold prioWhitelist.
  change (IsContainer (withoutChild dropped e)) with (IsContainer e).
  change (IsList (withoutChild dropped e)) with (IsList e).
  by rewrite DirLookup_withoutChild.
Qed.

Lemma compressedCandidates_silent_child e excludeState prio deprio dropped :
  dropped <> prio ->
  childCandidates e excludeState deprio (prioWhitelist e excludeState prio)
    dropped = [] ->
  compressedCandidates (withoutChild dropped e) excludeState prio deprio
  = compressedCandidates e excludeState prio deprio.
Proof.
  intros Hne Hsilent. unfold compressedCandidates.
  rewrite orderedChildNames_withoutChild, prioWhitelist_withoutChild by done.
  apply flat_map_filter_silent.
  - intros name _ Hname. unfold childCandidates.
    by rewrite DirLookup_withoutChild.
  - intros name _ Hname. apply dec_stable in Hname. by subst.
Qed.

(** ** The deprioritized copy of a whitelisted name *)

Lemma firstNamed_app_l k (l1 l2 : list Entry) v :
  v ∈ l1 -> Name v = k ->
  exists w, firstNamed k (l1 ++ l2) = Some w /\ w ∈ l1 /\ Name w = k.
Proof.
  intros Hv Hk. destruct (firstNamed_is_Some k l1 v Hv Hk) as [w Hw].
  exists w. split; [|by apply firstNamed_Some].
  unfold firstNamed in *. clear Hv.
  induction l1 as [|c l1 IH]; [done|]. simpl in *.
  destruct (String.eqb (Name c) k); [done | by apply IH].
Qed.

Lemma DirLookup_mapChild changed f e name :
  (forall c, Name (f c) = Name c) ->
  DirLookup (mapChild changed f e) name
  = (fun c => if String.eqb (Name c) changed then f c else c)
      <$> DirLookup e name.
Proof.
  intros Hf. unfold DirLookup, mapChild. simpl.
  induction (Dir e) as [|c l IH]; [done|]. simpl.
  assert (Name (if String.eqb (Name c) changed then f c else c) = Name c)
    as -> by (destruct (String.eqb (Name c) changed); [apply Hf | done]).
  destruct (String.eqb (Name c) name); [done | apply IH].
Qed.

Lemma other_names_mapChild prio changed f (l : list Entry) :
  (forall c, Name (f c) = Name c) ->
  map Name (filter (fun child => negb (String.eqb (Name child) prio))
              (map (fun c => if String.eqb (Name c) changed then f c else c) l))
  = map Name (filter (fun child => negb (String.eqb (Name child) prio)) l).
Proof.
  intros Hf. induction l as [|c l IH]; [done|]. simpl map at 2.
  assert (Name (if String.eqb (Name c) changed then f c else c) = Name c)
    as Hname by (destruct (String.eqb (Name c) changed); [apply Hf | done]).
  rewrite !filter_cons, Hname.
  case_decide; simpl; by rewrite ?Hname, IH.
Qed.

Lemma orderedChildNames_mapChild e prio changed f :
  (forall c, Name (f c) = Name c) ->
  orderedChildNames (mapChild changed f e) prio = orderedChildNames e prio.
Proof.
  intros Hf. unfold orderedChildNames.
  change (IsContainer (mapChild changed f e)) with (IsContainer e).
  change (IsList (mapChild changed f e)) with (IsList e).
  rewrite DirLookup_mapChild by done.
  change (Children (mapChild changed f e))
    with (map (fun c => if String.eqb (Name c) changed then f c else c)
              (Dir e)).
  rewrite other_names_mapChild by done.
  by destruct (DirLookup e prio).
Qed.

Lemma DirLookup_mapChild_other changed f e name :
  (forall c, Name (f c) = Name c) -> name <> changed ->
  DirLookup (mapChild changed f e) name = DirLookup e name.
Proof.
  intros Hf Hne. rewrite DirLookup_mapChild by done.
  destruct (DirLookup e name) as [c|] eqn:Hc; [|done].
  apply DirLookup_Some in Hc as [_ Hc]. simpl.
  assert (String.eqb (Name c) changed = false) as ->
    by (apply String.eqb_neq; congruence).
  done.
Qed.

Lemma prioWhitelist_mapChild e excludeState prio changed f :
  (forall c, Name (f c) = Name c) -> prio <> changed ->
  prioWhitelist (mapChild changed f e) excludeState prio
  = prioWhitelist e excludeState prio.
Proof.
  intros Hf Hne. unfold prioWhitelist.
  change (IsContainer (mapChild changed f e)) with (IsContainer e).
  change (IsList (mapChild changed f e)) with (IsList e).
  by rewrite DirLookup_mapChild_other.
Qed.

(** Leaving out the children named [x] of the deprioritized container does
    not change what passes the whitelist when [x] is on it. *)
Lemma whitelisted_withoutNamed (W : gset string) x s :
  x ∈ W ->
  filter (fun g => Name g ∉ W)
         (flat_map flattened (Children (withoutNamed x s)))
  = filter (fun g => Name g ∉ W) (flat_map flattened (Children s)).
Proof.
  intros Hx. unfold Children, withoutNamed. simpl.
  induction (Dir s) as [|g l IH]; [done|].
  rewrite filter_cons, flat_map_cons, filter_app, <- IH.
  case_decide as Hg.
  - by rewrite flat_map_cons, filter_app.
  - apply negb_prop_classical, Is_true_eq_true, andb_true_iff in Hg
      as [Hname Hw].
    apply String.eqb_eq in Hname. apply negb_true_iff in Hw.
    unfold flattened at 2. rewrite Hw, filter_cons, decide_False, filter_nil.
    + done.
    + rewrite Hname. tauto.
Qed.

Lemma compressedCandidates_withoutNamed e excludeState prio deprio s x :
  prio <> deprio ->
  DirLookup e deprio = Some s -> IsConfigState s = true ->
  x ∈ prioWhitelist e excludeState prio ->
  compressedCandidates (mapChild deprio (withoutNamed x) e)
    excludeState prio deprio
  = compressedCandidates e excludeState prio deprio.
Proof.
  intros Hne Hs Hcs Hx. unfold compressedCandidates.
  rewrite orderedChildNames_mapChild, prioWhitelist_mapChild by done.
  apply flat_map_ext_elem. intros name _. unfold childCandidates.
  change (IsList (mapChild deprio (withoutNamed x) e)) with (IsList e).
  destruct (String.eqb_spec name deprio) as [->|Hname].
  - rewrite DirLookup_mapChild, Hs by done. simpl.
    pose proof (DirLookup_Some _ _ _ Hs) as [_ Hd].
    rewrite Hd, String.eqb_refl.
    change (IsConfig (withoutNamed x s)) with (IsConfig s).
    change (IsConfigState (withoutNamed x s)) with (IsConfigState s).
    change (Name (withoutNamed x s)) with (Name s).
    rewrite Hcs, Hd, String.eqb_refl.
    destruct (excludeState && negb (IsConfig s)); [done|].
    by apply whitelisted_withoutNamed.
  - by rewrite DirLookup_mapChild_other.
Qed.

(** ** The scenarios of the specification *)

(** Scenario B: without compression the [config] and [state] containers are
    the children of [interface]. *)
Example scenarioB_uncompressed :
  FindAllChildren ScenarioA.interface Uncompressed =
  ({[ "config" := ScenarioA.config; "state" := ScenarioA.state ]}, []).
Proof. vm_compute. reflexivity. Qed.

(** Scenario C: the list takes the place of the container around it. *)
Example scenarioC_prefer_config :
  FindAllChildren ScenarioC.interfaces PreferIntendedConfig =
  ({[ "interface-list" := ScenarioC.interface_list ]}, []).
Proof. vm_compute. reflexivity. Qed.

(** The read-only [state] container is left out when derived state is
    excluded, and preferred under [PreferOperationalState]. *)
Example scenarioA_exclude_state :
  FindAllChildren ScenarioA.interface ExcludeDerivedState =
  ({[ "admin-state" := ScenarioA.config_admin_state ]}, []).
Proof. vm_compute. reflexivity. Qed.

Example scenarioA_prefer_state :
  FindAllChildren ScenarioA.interface PreferOperationalState =
  ({[ "admin-state" := ScenarioA.state_admin_state;
      "oper-state" := ScenarioA.oper_state;
      "counters" := ScenarioA.counters ]}, []).
Proof. vm_compute. reflexivity. Qed.

(** Under a case the prioritized container is not read at all. *)
Example case_node_prefer_config :
  FindAllChildren CaseNode.static PreferIntendedConfig =
  ({[ "a" := CaseNode.state_a; "b" := CaseNode.state_b ]}, []).
Proof. vm_compute. reflexivity. Qed.

(** * The claims *)

(** C9: [TranslateToCompressBehaviour] is the four-row table, compression is
    off exactly for the two uncompressed policies and derived state is
    excluded exactly for the two [...ExcludeDerivedState] policies. *)
Theorem translate_policy_table :
  TranslateToCompressBehaviour true true = ExcludeDerivedState
  /\ TranslateToCompressBehaviour true false = PreferIntendedConfig
  /\ TranslateToCompressBehaviour false true = UncompressedExcludeDerivedState
  /\ TranslateToCompressBehaviour false false = Uncompressed
  /\ (forall p, CompressEnabled p = false <->
                p = Uncompressed \/ p = UncompressedExcludeDerivedState)
  /\ (forall p, StateExcluded p = true <->
                p = UncompressedExcludeDerivedState \/ p = ExcludeDerivedState).
Proof.
  repeat split; try reflexivity.
  - destruct p; simpl; intros H; try discriminate H; auto.
  - intros [-> | ->]; reflexivity.
  - destruct p; simpl; intros H; try discriminate H; auto.
  - intros [-> | ->]; reflexivity.
Qed.

(** C1: scenario A.  Under [PreferIntendedConfig] the children of [interface]
    are [admin-state] (the leaf of [config]), [oper-state] and [counters],
    with no error; a later call on [counters] yields [in-pkts]. *)
Theorem scenarioA_prefer_config :
  FindAllChildren ScenarioA.interface PreferIntendedConfig =
    ({[ "admin-state" := ScenarioA.config_admin_state;
        "oper-state" := ScenarioA.oper_state;
        "counters" := ScenarioA.counters ]}, [])
  /\ FindAllChildren ScenarioA.counters PreferIntendedConfig =
       ({[ "in-pkts" := ScenarioA.in_pkts ]}, []).
Proof. split; vm_compute; reflexivity. Qed.

(** C5: when the policy excludes derived state and the node is effectively
    read-only (by its own [config] statement or by the one it inherits), the
    call returns the empty mapping and no error, whatever the node
    declares. *)
Theorem read_only_node_resolves_to_nothing e p :
  StateExcluded p = true -> IsConfig e = false ->
  FindAllChildren e p = (∅, []).
Proof.
  intros Hp He. unfold FindAllChildren.
  by rewrite excludeState_StateExcluded, Hp, He.
Qed.

Lemma read_only_node_witness :
  StateExcluded ExcludeDerivedState = true
  /\ IsConfig ReadOnly.neighbor = false
  /\ Dir ReadOnly.neighbor = [ReadOnly.uptime]
  /\ FindAllChildren ReadOnly.neighbor ExcludeDerivedState = (∅, []).
Proof.
  split; [reflexivity|]. split; [reflexivity|]. split; [reflexivity|].
  apply (read_only_node_resolves_to_nothing ReadOnly.neighbor
           ExcludeDerivedState); reflexivity.
Defined.

(** C6: no entry of the mapping returned by [FindAllChildren] is a choice or
    a case; the flattener never yields one, and [addNonChoiceChildren] adds
    none to a mapping. *)
Theorem no_choice_or_case_child e p :
  map_Forall (fun _ v => IsChoiceOrCase v = false) (FindAllChildren e p).1
  /\ Forall (fun v => IsChoiceOrCase v = false) (FindFirstNonChoiceOrCase e)
  /\ (forall m errs,
        map_Forall (fun _ v => IsChoiceOrCase v = false) m ->
        map_Forall (fun _ v => IsChoiceOrCase v = false)
                   (addNonChoiceChildren m e errs).1).
Proof.
  split; [|split].
  - intros k v [Hv _]%FindAllChildren_candidate.
    by apply (candidates_not_wrapper e p).
  - apply Forall_forall, FindFirstNonChoiceOrCase_not_wrapper.
  - intros m errs Hm k v. rewrite addNonChoiceChildren_addAll.
    intros [Hv|[Hv _]]%addAll_provenance.
    + by apply (Hm k).
    + by apply (FindFirstNonChoiceOrCase_not_wrapper e).
Qed.

(** C7: the guard, called with a name that is taken, leaves the mapping as
    it is and appends one error that carries the path of the offending node;
    a whole call binds every name to the first candidate that carries it and
    returns, in order, one error for each candidate that was turned down, so
    that every candidate is either in the mapping or reported. *)
Theorem duplicates_reported_first_writer_wins :
  (forall (m : gmap string Entry) k v errs,
      is_Some (m !! k) ->
      addNewChild m k v errs = (m, errs ++ [Path v +:+ " was duplicate"]))
  /\ (forall e p,
        (forall k,
            (FindAllChildren e p).1 !! k = firstNamed k (candidates e p))
        /\ (FindAllChildren e p).2 =
             map (fun v => Path v +:+ " was duplicate")
                 (rejected ∅ (candidates e p))
        /\ size (FindAllChildren e p).1 + length (FindAllChildren e p).2 =
             length (candidates e p)).
Proof.
  split; [apply addNewChild_taken|].
  intros e p. split; [apply FindAllChildren_lookup|].
  rewrite FindAllChildren_addAll. split.
  - rewrite addAll_errs. simpl. by rewrite dom_empty_L.
  - rewrite addAll_count. simpl. by rewrite map_size_empty.
Qed.

(** C10: under a compressed policy, when the queried node is neither a
    container nor a list, the child that carries the priority name is not
    scheduled, and the call returns what it returns for the node without
    that child: the same mapping and the same errors. *)
Theorem prioritized_child_of_wrapper_dropped e p :
  CompressEnabled p = true -> IsContainer e = false -> IsList e = false ->
  (prioData p ∉ orderedChildNames e (prioData p))
  /\ FindAllChildren e p = FindAllChildren (withoutChild (prioData p) e) p.
Proof.
  intros Hp Hc Hl. split.
  - unfold orderedChildNames. rewrite Hc, Hl. simpl. intros Hin.
    pose proof (other_names e (prioData p)) as Hall.
    rewrite Forall_forall in Hall. by apply (Hall _ Hin).
  - rewrite !FindAllChildren_addAll, !candidates_compressed by done.
    change (IsConfig (withoutChild (prioData p) e)) with (IsConfig e).
    rewrite compressedCandidates_withoutChild; [done|].
    by rewrite Hc, Hl.
Qed.

Lemma prioritized_child_of_wrapper_dropped_witness :
  (prioData PreferIntendedConfig ∉
     orderedChildNames CaseNode.static (prioData PreferIntendedConfig))
  /\ FindAllChildren CaseNode.static PreferIntendedConfig =
       FindAllChildren
         (withoutChild (prioData PreferIntendedConfig) CaseNode.static)
         PreferIntendedConfig.
Proof.
  apply (prioritized_child_of_wrapper_dropped CaseNode.static
           PreferIntendedConfig); reflexivity.
Defined.

(** C3, as the code has it: under a compressed policy, a leafref that a list
    declares is not an entry of the children resolved for that list (its name
    may still be bound, to a leaf of the [config] or [state] container).  The
    tree is well linked, as the schema loader builds it. *)
Theorem leafref_of_list_suppressed e p d k :
  wellLinked e = true -> IsList e = true -> CompressEnabled p = true ->
  d ∈ Dir e -> IsLeafRef d = true ->
  (FindAllChildren e p).1 !! k <> Some d.
Proof.
  intros Hwf He Hp Hd Hleaf [Hcand _]%FindAllChildren_candidate.
  rewrite candidates_compressed in Hcand by done.
  destruct (StateExcluded p && negb (IsConfig e));
    [by apply elem_of_nil in Hcand|].
  apply declared_child_candidate in Hcand
    as (name & _ & _ & [(Hdir & _)|(_ & Hl)]); try done.
  - apply IsDir_not_leafref in Hdir. congruence.
  - rewrite He, Hleaf in Hl. discriminate.
Qed.

Lemma leafref_of_list_suppressed_witness :
  (FindAllChildren KeyedList.interface PreferIntendedConfig).1 !! "name"
  <> Some KeyedList.name_ref.
Proof.
  apply (leafref_of_list_suppressed KeyedList.interface PreferIntendedConfig
           KeyedList.name_ref "name"); try reflexivity.
  apply list_elem_of_here.
Defined.

(** C3 fails without compression: the leafref a list declares is returned
    with the other declared children. *)
Lemma leafref_of_list_kept_uncompressed :
  IsList KeyedList.interface = true
  /\ KeyedList.name_ref ∈ Dir KeyedList.interface
  /\ IsLeafRef KeyedList.name_ref = true
  /\ FindAllChildren KeyedList.interface Uncompressed =
       ({[ "name" := KeyedList.name_ref; "config" := KeyedList.config ]}, [])
  /\ (FindAllChildren KeyedList.interface Uncompressed).1 !! "name"
       = Some KeyedList.name_ref.
Proof.
  split; [reflexivity|]. split; [apply list_elem_of_here|].
  split; [reflexivity|]. split; vm_compute; reflexivity.
Qed.

(** C4, as the code has it: under a compressed policy, a declared child
    container [c] of a well-linked node that is not a config/state container
    and whose only child is a list [l] is never an entry of the resolved
    children.  When derived state is excluded and the node, [c] or [l] is
    effectively read-only, the call returns what it returns without [c];
    otherwise the name of [l] is bound, to [l] itself unless an earlier
    candidate took the name, in which case the error of [l] is returned. *)
Theorem singleton_list_wrapper_unwrapped e p c l :
  wellLinked e = true -> CompressEnabled p = true ->
  DirLookup e (Name c) = Some c ->
  IsContainer c = true -> IsConfigState c = false ->
  Children c = [l] -> IsList l = true ->
  (forall k, (FindAllChildren e p).1 !! k <> Some c)
  /\ (if StateExcluded p && negb (IsConfig e && IsConfig c && IsConfig l)
      then FindAllChildren e p = FindAllChildren (withoutChild (Name c) e) p
      else is_Some ((FindAllChildren e p).1 !! Name l)
           /\ ((FindAllChildren e p).1 !! Name l = Some l
               \/ (Path l +:+ " was duplicate") ∈ (FindAllChildren e p).2)).
Proof.
  intros Hwf Hp Hlook Hc Hcs Hkids Hl.
  pose proof (DirLookup_Some _ _ _ Hlook) as [Hin _].
  destruct (compressed_policy_names p Hp) as (Hnames & Hprio & _).
  pose proof (not_config_state_name c _ Hc Hcs Hprio) as Hne.
  assert (singletonList (Children c) = Some l) as Hsingle
    by (rewrite Hkids; simpl; by rewrite Hl).
  assert (IsDir c = true) as Hdir
    by (unfold IsContainer in Hc; unfold IsDir; by destruct (Kind c)).
  assert (childCandidates e (StateExcluded p) (deprioData p)
            (prioWhitelist e (StateExcluded p) (prioData p)) (Name c)
          = if StateExcluded p && negb (IsConfig c) then []
            else if negb (IsConfig l) && StateExcluded p then [] else [l])
    as Hoffer.
  { unfold childCandidates. by rewrite Hlook, Hcs, Hdir, Hsingle. }
  split.
  - intros k [Hcand _]%FindAllChildren_candidate.
    rewrite candidates_compressed in Hcand by done.
    destruct (StateExcluded p && negb (IsConfig e));
      [by apply elem_of_nil in Hcand|].
    apply declared_child_candidate in Hcand
      as (name & _ & _ & [(_ & Hs & _)|(Hd & _)]); try done; congruence.
  - destruct (StateExcluded p) eqn:Hx; simpl.
    + destruct (IsConfig e) eqn:He; simpl.
      2:{ rewrite !FindAllChildren_addAll, !candidates_compressed by done.
          change (IsConfig (withoutChild (Name c) e)) with (IsConfig e).
          by rewrite Hx, He. }
      destruct (IsConfig c) eqn:Hvc; simpl.
      2:{ rewrite !FindAllChildren_addAll, !candidates_compressed by done.
          change (IsConfig (withoutChild (Name c) e)) with (IsConfig e).
          rewrite Hx, He. simpl.
          rewrite compressedCandidates_silent_child; [done|done|].
          by rewrite Hoffer. }
      destruct (IsConfig l) eqn:Hvl; simpl.
      2:{ rewrite !FindAllChildren_addAll, !candidates_compressed by done.
          change (IsConfig (withoutChild (Name c) e)) with (IsConfig e).
          rewrite Hx, He. simpl.
          rewrite compressedCandidates_silent_child; [done|done|].
          by rewrite Hoffer. }
      apply candidate_resolved. rewrite candidates_compressed by done.
      rewrite Hx, He. simpl. apply elem_of_flat_map. exists (Name c).
      split; [by apply other_child_scheduled|].
      rewrite Hoffer. simpl. left.
    + apply candidate_resolved. rewrite candidates_compressed by done.
      rewrite Hx. simpl. apply elem_of_flat_map. exists (Name c).
      split; [by apply other_child_scheduled|].
      rewrite Hoffer. simpl. rewrite andb_false_r. left.
Qed.

Lemma singleton_list_wrapper_unwrapped_witness :
  (forall k, (FindAllChildren ScenarioC.interfaces PreferIntendedConfig).1 !! k
             <> Some ScenarioC.interface)
  /\ is_Some ((FindAllChildren ScenarioC.interfaces PreferIntendedConfig).1
                !! "interface-list")
  /\ ((FindAllChildren ScenarioC.interfaces PreferIntendedConfig).1
        !! "interface-list" = Some ScenarioC.interface_list
      \/ "/interfaces/interface/interface-list was duplicate"
           ∈ (FindAllChildren ScenarioC.interfaces PreferIntendedConfig).2).
Proof.
  apply (singleton_list_wrapper_unwrapped ScenarioC.interfaces
           PreferIntendedConfig ScenarioC.interface ScenarioC.interface_list);
    reflexivity.
Defined.

(** C4 fails when the name of the list is taken: of two containers around
    lists of the same name the second list is not an entry of the resolved
    children; its error is returned. *)
Lemma second_wrapped_list_not_resolved :
  DirLookup TwoWrappers.top "b" = Some TwoWrappers.b
  /\ IsContainer TwoWrappers.b = true /\ IsConfigState TwoWrappers.b = false
  /\ Children TwoWrappers.b = [TwoWrappers.b_item]
  /\ IsList TwoWrappers.b_item = true
  /\ FindAllChildren TwoWrappers.top PreferIntendedConfig =
       ({[ "item" := TwoWrappers.a_item ]}, ["/top/b/item was duplicate"])
  /\ (forall k, (FindAllChildren TwoWrappers.top PreferIntendedConfig).1 !! k
                <> Some TwoWrappers.b_item).
Proof.
  do 5 (split; [reflexivity|]).
  assert (FindAllChildren TwoWrappers.top PreferIntendedConfig =
            ({[ "item" := TwoWrappers.a_item ]}, ["/top/b/item was duplicate"]))
    as Hresult by (vm_compute; reflexivity).
  split; [done|]. rewrite Hresult. simpl.
  intros k [_ Hk]%lookup_singleton_Some. discriminate Hk.
Qed.

(** C2, as the code has it: a node whose [config] and [state] children are
    containers that each declare a node named [x] (a leaf, or anything but a
    choice or a case), resolved under a compressed policy that skips neither
    the node nor the container processed first as read-only.  The resolved
    children have exactly one entry named [x].  When the node is a container
    or a list that entry comes from the prioritized container, and the copy
    of [x] in the deprioritized container raises no error: the call returns
    the mapping and the errors it returns for the tree without that copy. *)
Theorem mirrored_leaf_resolved_once e p c s lc ls x :
  CompressEnabled p = true ->
  DirLookup e (prioData p) = Some c -> IsConfigState c = true ->
  DirLookup e (deprioData p) = Some s -> IsConfigState s = true ->
  lc ∈ Children c -> Name lc = x -> IsChoiceOrCase lc = false ->
  ls ∈ Children s -> Name ls = x -> IsChoiceOrCase ls = false ->
  StateExcluded p
  && negb (IsConfig e
           && IsConfig (if IsContainer e || IsList e then c else s)) = false ->
  (exists v,
      (FindAllChildren e p).1 !! x = Some v /\ Name v = x
      /\ (IsContainer e || IsList e = true ->
          v ∈ flat_map flattened (Children c))
      /\ forall k v',
           (FindAllChildren e p).1 !! k = Some v' -> Name v' = x -> k = x)
  /\ (IsContainer e || IsList e = true ->
      FindAllChildren e p =
      FindAllChildren (mapChild (deprioData p) (withoutNamed x) e) p).
Proof.
  intros Hp Hc Hcs Hs Hss Hlc Hxc Hwc Hls Hxs Hws Hvisible.
  destruct (compressed_policy_names p Hp) as (Hne & _ & _).
  pose proof (DirLookup_Some _ _ _ Hc) as [Hcin Hcname].
  pose proof (DirLookup_Some _ _ _ Hs) as [Hsin Hsname].
  assert (lc ∈ flat_map flattened (Children c)) as Hlc'.
  { apply elem_of_flat_map. exists lc. split; [done|].
    unfold flattened. rewrite Hwc. left. }
  assert (ls ∈ flat_map flattened (Children s)) as Hls'.
  { apply elem_of_flat_map. exists ls. split; [done|].
    unfold flattened. rewrite Hws. left. }
  assert (StateExcluded p && negb (IsConfig e) = false) as Hguard.
  { destruct (StateExcluded p); [|done]. simpl in *.
    apply negb_false_iff, andb_true_iff in Hvisible as [-> _]. done. }
  assert (candidates e p =
          compressedCandidates e (StateExcluded p) (prioData p) (deprioData p))
    as Hcands by (by rewrite candidates_compressed, Hguard).
  destruct (IsContainer e || IsList e) eqn:He.
  - assert (StateExcluded p && negb (IsConfig c) = false) as Hcvis.
    { destruct (StateExcluded p); [|done]. simpl in *.
      apply negb_false_iff, andb_true_iff in Hvisible as [_ ->]. done. }
    assert (childCandidates e (StateExcluded p) (deprioData p)
              (prioWhitelist e (StateExcluded p) (prioData p)) (prioData p)
            = flat_map flattened (Children c)) as Hoffer.
    { unfold childCandidates. rewrite Hc, Hcvis, Hcs, Hcname.
      assert (String.eqb (prioData p) (deprioData p) = false) as ->
        by (by apply String.eqb_neq).
      done. }
    assert (x ∈ prioWhitelist e (StateExcluded p) (prioData p)) as Hwhite.
    { unfold prioWhitelist. rewrite He, Hc, Hcvis, Hcs.
      apply elem_of_list_to_set. rewrite <- Hxc.
      by apply list_elem_of_fmap_2. }
    split.
    + assert (exists rest,
                 candidates e p = flat_map flattened (Children c) ++ rest)
        as [rest Hsplit].
      { rewrite Hcands. unfold compressedCandidates at 1.
        unfold orderedChildNames at 1. rewrite He, Hc. simpl app.
        rewrite flat_map_cons, Hoffer. eauto. }
      destruct (firstNamed_app_l x _ rest lc Hlc' Hxc) as (v & Hv & Hin & Hname).
      exists v. rewrite FindAllChildren_lookup, Hsplit.
      split; [done|]. split; [done|]. split; [done|].
      intros k v' [_ Hk]%FindAllChildren_candidate. congruence.
    + intros _. rewrite !FindAllChildren_addAll, !candidates_compressed by done.
      change (IsConfig (mapChild (deprioData p) (withoutNamed x) e))
        with (IsConfig e).
      rewrite Hguard.
      by rewrite (compressedCandidates_withoutNamed _ _ _ _ s).
  - split; [|done].
    assert (StateExcluded p && negb (IsConfig s) = false) as Hsvis.
    { destruct (StateExcluded p); [|done]. simpl in *.
      apply negb_false_iff, andb_true_iff in Hvisible as [_ ->]. done. }
    assert (ls ∈ candidates e p) as Hcand.
    { rewrite Hcands. apply elem_of_flat_map. exists (deprioData p). split.
      - rewrite <- Hsname. apply other_child_scheduled; [done|congruence].
      - unfold childCandidates, prioWhitelist.
        rewrite He, Hs, Hsvis, Hss, Hsname, String.eqb_refl.
        apply list_elem_of_filter. split; [set_solver | done]. }
    destruct (firstNamed_is_Some x _ ls Hcand Hxs) as [v Hv].
    exists v. rewrite FindAllChildren_lookup. split; [done|].
    split; [by apply firstNamed_Some in Hv as [_ ?]|]. split; [done|].
    intros k v' [_ Hk]%FindAllChildren_candidate. congruence.
Qed.

Lemma mirrored_leaf_resolved_once_witness :
  (exists v,
      (FindAllChildren ScenarioA.interface PreferIntendedConfig).1
        !! "admin-state" = Some v
      /\ Name v = "admin-state"
      /\ (IsContainer ScenarioA.interface || IsList ScenarioA.interface = true ->
          v ∈ flat_map flattened (Children ScenarioA.config))
      /\ forall k v',
           (FindAllChildren ScenarioA.interface PreferIntendedConfig).1 !! k
             = Some v' ->
           Name v' = "admin-state" -> k = "admin-state")
  /\ (IsContainer ScenarioA.interface || IsList ScenarioA.interface = true ->
      FindAllChildren ScenarioA.interface PreferIntendedConfig =
      FindAllChildren
        (mapChild (deprioData PreferIntendedConfig)
           (withoutNamed "admin-state") ScenarioA.interface)
        PreferIntendedConfig).
Proof.
  apply (mirrored_leaf_resolved_once ScenarioA.interface PreferIntendedConfig
           ScenarioA.config ScenarioA.state
           ScenarioA.config_admin_state ScenarioA.state_admin_state
           "admin-state");
    try reflexivity.
  - apply list_elem_of_here.
  - apply list_elem_of_here.
Defined.

(** C2 fails under [ExcludeDerivedState] on a read-only node: nothing is
    resolved, so no entry is named [x]. *)
Lemma mirrored_leaf_of_read_only_node :
  DirLookup ReadOnlyPair.system "config" = Some ReadOnlyPair.config
  /\ DirLookup ReadOnlyPair.system "state" = Some ReadOnlyPair.state
  /\ IsConfigState ReadOnlyPair.config = true
  /\ IsConfigState ReadOnlyPair.state = true
  /\ Children ReadOnlyPair.config = [ReadOnlyPair.config_x]
  /\ Children ReadOnlyPair.state = [ReadOnlyPair.state_x]
  /\ Name ReadOnlyPair.config_x = "x" /\ Kind ReadOnlyPair.config_x = Leaf
  /\ Name ReadOnlyPair.state_x = "x" /\ Kind ReadOnlyPair.state_x = Leaf
  /\ FindAllChildren ReadOnlyPair.system ExcludeDerivedState = (∅, [])
  /\ (FindAllChildren ReadOnlyPair.system ExcludeDerivedState).1 !! "x" = None.
Proof. do 11 (split; [reflexivity|]). reflexivity. Qed.


(** * Further properties of the package *)

(** ** The policy *)

(** X1: the translation keeps both flags: the policy it returns has
    compression enabled exactly when [compressPaths] is set and excludes
    derived state exactly when [excludeState] is set; it never returns
    [PreferOperationalState]. *)
Theorem translate_keeps_flags compressPaths excludeState :
  CompressEnabled (TranslateToCompressBehaviour compressPaths excludeState)
    = compressPaths
  /\ StateExcluded (TranslateToCompressBehaviour compressPaths excludeState)
       = excludeState
  /\ TranslateToCompressBehaviour compressPaths excludeState
       <> PreferOperationalState.
Proof.
  destruct compressPaths, excludeState; repeat split; simpl; discriminate.
Qed.

(** ** Buffers and defaults *)

Lemma string_length_zero s : String.length s = 0 -> s = EmptyString.
Proof. by destruct s. Qed.

Lemma string_app_cons x a b : String x a +:+ b = String x (a +:+ b).
Proof. reflexivity. Qed.

Lemma string_app_empty_r s : s +:+ EmptyString = s.
Proof.
  induction s as [|a s IH]; [done|]. by rewrite string_app_cons, IH.
Qed.

Lemma string_app_assoc a b c : (a +:+ b) +:+ c = a +:+ (b +:+ c).
Proof.
  induction a as [|x a IH]; [done|]. by rewrite !string_app_cons, IH.
Qed.

Lemma string_app_length a b :
  String.length (a +:+ b) = String.length a + String.length b.
Proof.
  induction a as [|x a IH]; [done|]. rewrite string_app_cons. simpl.
  by rewrite IH.
Qed.

Lemma WriteIfNotEmpty_append b s : WriteIfNotEmpty b s = b +:+ s.
Proof.
  unfold WriteIfNotEmpty. destruct (Nat.eqb_spec (String.length s) 0) as [H|H].
  - apply string_length_zero in H as ->. simpl. by rewrite string_app_empty_r.
  - done.
Qed.

(** X2: after [WriteIfNotEmpty] the buffer holds what it held followed by
    [s], its length grows by the length of [s], and two writes in a row
    leave what one write of the two strings joined leaves. *)
Theorem WriteIfNotEmpty_content b s1 s2 :
  WriteIfNotEmpty b s1 = b +:+ s1
  /\ String.length (WriteIfNotEmpty b s1) = String.length b + String.length s1
  /\ WriteIfNotEmpty (WriteIfNotEmpty b s1) s2 = WriteIfNotEmpty b (s1 +:+ s2).
Proof.
  rewrite !WriteIfNotEmpty_append. split; [done|]. split.
  - apply string_app_length.
  - apply string_app_assoc.
Qed.

(** X3: [TypeDefaultValue] returns a default exactly when the type is given
    and its default is not the empty string; the string it returns is that
    default, so it is never empty. *)
Theorem TypeDefaultValue_spec t d :
  TypeDefaultValue t = Some d <->
  exists ty, t = Some ty /\ Default ty = d /\ d <> EmptyString.
Proof.
  unfold TypeDefaultValue. split.
  - destruct t as [ty|]; [|done].
    destruct (String.eqb_spec (Default ty) EmptyString) as [H|H]; [done|].
    intros [= <-]. eauto.
  - intros (ty & -> & <- & Hne).
    by destruct (String.eqb_spec (Default ty) EmptyString).
Qed.

(** ** Ordered keys *)

Lemma stringLe_trans a : forall b c,
  stringLe a b -> stringLe b c -> stringLe a c.
Proof.
  unfold stringLe, String.leb.
  induction a as [|x a IH]; intros [|y b] [|z c]; simpl; try done.
  unfold Ascii.compare.
  destruct (N.compare_spec (Ascii.N_of_ascii x) (Ascii.N_of_ascii y)),
           (N.compare_spec (Ascii.N_of_ascii y) (Ascii.N_of_ascii z)),
           (N.compare_spec (Ascii.N_of_ascii x) (Ascii.N_of_ascii z));
    try done; try lia.
  apply IH.
Qed.

#[global] Instance stringLe_transitive : Transitive stringLe.
Proof. intros a b c. apply stringLe_trans. Qed.

#[global] Instance stringLe_total : Total stringLe.
Proof. intros a b. apply String.leb_total. Qed.

#[global] Instance stringLe_antisymm : AntiSymm (=) stringLe.
Proof. intros a b. apply String.leb_antisym. Qed.

Lemma collected_keys (visit : list string) :
  foldl (fun orderedKeys key => orderedKeys ++ [key]) [] visit = visit.
Proof.
  assert (forall acc, foldl (fun orderedKeys key => orderedKeys ++ [key])
                        acc visit = acc ++ visit) as H.
  { induction visit as [|k visit IH]; intros acc; simpl.
    - by rewrite app_nil_r.
    - by rewrite IH, <- app_assoc. }
  apply H.
Qed.

Lemma orderedKeysVisiting_sorted visit :
  StronglySorted stringLe (orderedKeysVisiting visit)
  /\ orderedKeysVisiting visit ≡ₚ visit.
Proof.
  unfold orderedKeysVisiting, sortStrings. rewrite collected_keys. split.
  - apply StronglySorted_merge_sort; apply _.
  - apply merge_sort_Permutation.
Qed.

Lemma orderedKeysVisiting_Permutation visit1 visit2 :
  visit1 ≡ₚ visit2 -> orderedKeysVisiting visit1 = orderedKeysVisiting visit2.
Proof.
  intros Hperm.
  destruct (orderedKeysVisiting_sorted visit1) as [Hs1 Hp1].
  destruct (orderedKeysVisiting_sorted visit2) as [Hs2 Hp2].
  apply (StronglySorted_unique stringLe); [done|done|].
  by rewrite Hp1, Hp2.
Qed.

Lemma elem_of_keys (entries : gmap string Entry) k :
  k ∈ (map_to_list entries).*1 <-> is_Some (entries !! k).
Proof.
  rewrite list_elem_of_fmap. split.
  - intros ([k' v] & -> & Hin). apply elem_of_map_to_list in Hin. eauto.
  - intros [v Hv]. exists (k, v). split; [done|].
    by apply elem_of_map_to_list.
Qed.

(** X4: [GetOrderedEntryKeys] returns the keys of the map, each once, in
    increasing order; it returns as many strings as the map has entries. *)
Theorem GetOrderedEntryKeys_sorted_keys (entries : gmap string Entry) :
  StronglySorted stringLe (GetOrderedEntryKeys entries)
  /\ NoDup (GetOrderedEntryKeys entries)
  /\ (forall k, k ∈ GetOrderedEntryKeys entries <-> is_Some (entries !! k))
  /\ length (GetOrderedEntryKeys entries) = size entries.
Proof.
  unfold GetOrderedEntryKeys.
  destruct (orderedKeysVisiting_sorted (map_to_list entries).*1)
    as [Hsorted Hperm].
  split; [done|]. split; [|split].
  - rewrite Hperm. apply NoDup_fst_map_to_list.
  - intros k. rewrite Hperm. apply elem_of_keys.
  - by rewrite Hperm, length_fmap, length_map_to_list.
Qed.

(** X5: the result of [GetOrderedEntryKeys] does not depend on the order in
    which the [range] visits the map: any visit of every key once gives the
    same list. *)
Theorem GetOrderedEntryKeys_any_visit (entries : gmap string Entry) visit :
  NoDup visit -> (forall k, k ∈ visit <-> is_Some (entries !! k)) ->
  orderedKeysVisiting visit = GetOrderedEntryKeys entries.
Proof.
  intros Hnodup Hkeys. apply orderedKeysVisiting_Permutation.
  apply NoDup_Permutation; [done | apply NoDup_fst_map_to_list|].
  intros k. by rewrite Hkeys, elem_of_keys.
Qed.

Lemma GetOrderedEntryKeys_any_visit_witness :
  orderedKeysVisiting ["state"; "config"] =
  GetOrderedEntryKeys
    {[ "config" := ScenarioA.config; "state" := ScenarioA.state ]}.
Proof.
  apply (GetOrderedEntryKeys_any_visit
           {[ "config" := ScenarioA.config; "state" := ScenarioA.state ]}
           ["state"; "config"]).
  - apply NoDup_cons. split; [|apply NoDup_singleton].
    intros Hin%list_elem_of_singleton. discriminate Hin.
  - intros k. rewrite !elem_of_cons, elem_of_nil.
    destruct (decide (k = "state")) as [->|Hs];
      [split; [by eexists | by left]|].
    destruct (decide (k = "config")) as [->|Hc];
      [split; [by eexists | by right; left]|].
    split; [intros [?|[?|[]]]; done|].
    rewrite lookup_insert_ne, lookup_singleton_ne by done.
    by intros [? ?].
Defined.

(** ** The resolved mapping and its errors *)

(** X6: every entry of the mapping returned by [FindAllChildren] is keyed by
    the name of its node. *)
Theorem resolved_child_keyed_by_name e p k v :
  (FindAllChildren e p).1 !! k = Some v -> Name v = k.
Proof. by intros [_ H]%FindAllChildren_candidate. Qed.

Lemma resolved_child_keyed_by_name_witness :
  Name ScenarioA.counters = "counters".
Proof.
  apply (resolved_child_keyed_by_name ScenarioA.interface
           PreferIntendedConfig "counters" ScenarioA.counters).
  vm_compute. reflexivity.
Defined.

Lemma elem_of_names (cs : list Entry) k :
  k ∈ map Name cs <-> is_Some (firstNamed k cs).
Proof.
  split.
  - intros (v & -> & Hv)%list_elem_of_fmap. by apply (firstNamed_is_Some _ _ v).
  - intros [v [Hv <-]%firstNamed_Some]. by apply list_elem_of_fmap_2.
Qed.

Lemma FindAllChildren_dom e p :
  dom (FindAllChildren e p).1 = list_to_set (map Name (candidates e p)).
Proof.
  apply set_eq. intros k.
  by rewrite elem_of_dom, FindAllChildren_lookup, elem_of_list_to_set,
    elem_of_names.
Qed.

Lemma rejected_nil cs : forall seen,
  rejected seen cs = [] <->
  NoDup (map Name cs) /\ forall k, k ∈ map Name cs -> k ∉ seen.
Proof.
  induction cs as [|c cs IH]; intros seen; simpl.
  - split; [intros _|done]. split; [apply NoDup_nil_2|]. by intros k ?%elem_of_nil.
  - case_bool_decide as Hc.
    + split; [done|]. intros [_ Hfresh]. destruct (Hfresh (Name c)); [left|done].
    + rewrite IH, NoDup_cons. split.
      * intros [Hnodup Hfresh]. split; [split; [|done]|].
        -- intros Hin. apply (Hfresh _ Hin). set_solver.
        -- intros k [->|Hk]%elem_of_cons; [done|].
           specialize (Hfresh _ Hk). set_solver.
      * intros [[Hc' Hnodup] Hfresh]. split; [done|].
        intros k Hk [->%elem_of_singleton|Hs]%elem_of_union; [done|].
        apply (Hfresh k); [by right | done].
Qed.

Lemma errors_nil_iff e p :
  (FindAllChildren e p).2 = [] <-> NoDup (map Name (candidates e p)).
Proof.
  rewrite FindAllChildren_addAll, addAll_errs. simpl. rewrite dom_empty_L.
  split.
  - intros Hnil%fmap_nil_inv. by apply rejected_nil in Hnil as [? _].
  - intros Hnodup.
    assert (rejected ∅ (candidates e p) = []) as ->; [|done].
    apply rejected_nil. split; [done | set_solver].
Qed.

Lemma distinct_names_resolved e p v :
  NoDup (map Name (candidates e p)) -> v ∈ candidates e p ->
  (FindAllChildren e p).1 !! Name v = Some v.
Proof.
  intros Hnodup Hv.
  destruct (rejected_or_first _ ∅ _ Hv) as [[_ Hfirst]|Hrej].
  - by rewrite FindAllChildren_lookup.
  - assert (rejected ∅ (candidates e p) = []) as Hnil
      by (apply rejected_nil; split; [done | set_solver]).
    rewrite Hnil in Hrej. by apply elem_of_nil in Hrej.
Qed.

(** X7: a call returns no error exactly when the nodes it offers to the
    guard have distinct names; every offered node is then in the mapping
    under its name, and the mapping has one entry for each. *)
Theorem no_error_iff_distinct_names e p :
  ((FindAllChildren e p).2 = [] <-> NoDup (map Name (candidates e p)))
  /\ ((FindAllChildren e p).2 = [] ->
      (forall v, v ∈ candidates e p ->
                 (FindAllChildren e p).1 !! Name v = Some v)
      /\ size (FindAllChildren e p).1 = length (candidates e p)).
Proof.
  split; [apply errors_nil_iff|].
  intros Hnone. split.
  - intros v. apply distinct_names_resolved. by apply errors_nil_iff.
  - pose proof (addAll_count (candidates e p) (∅, [])) as Hcount.
    rewrite <- FindAllChildren_addAll, Hnone in Hcount. simpl in Hcount.
    rewrite map_size_empty in Hcount. lia.
Qed.

Lemma list_to_map_firstNamed (cs : list Entry) k :
  (list_to_map (map (fun c => (Name c, c)) cs) : gmap string Entry) !! k
  = firstNamed k cs.
Proof.
  induction cs as [|c cs IH]; [done|].
  rewrite firstNamed_cons. simpl.
  destruct (String.eqb_spec (Name c) k) as [<-|Hne].
  - apply lookup_insert_eq.
  - by rewrite lookup_insert_ne.
Qed.

Lemma flat_map_flattened_plain (l : list Entry) :
  (forall c, c ∈ l -> IsChoiceOrCase c = false) -> flat_map flattened l = l.
Proof.
  induction l as [|c l IH]; intros Hplain; [done|].
  rewrite flat_map_cons, IH by (intros ? ?; apply Hplain; by right).
  unfold flattened. by rewrite Hplain by left.
Qed.

(** X8: without compression, a node that declares no choice or case, its
    children named apart, resolves to its declared children, each under its
    own name, and no error. *)
Theorem uncompressed_returns_declared_children e :
  (forall c, c ∈ Dir e -> IsChoiceOrCase c = false) ->
  NoDup (map Name (Dir e)) ->
  FindAllChildren e Uncompressed =
    (list_to_map (map (fun c => (Name c, c)) (Dir e)), [])
  /\ forall c, c ∈ Dir e ->
       (FindAllChildren e Uncompressed).1 !! Name c = Some c.
Proof.
  intros Hplain Hnodup.
  assert (candidates e Uncompressed = Dir e) as Hcands.
  { unfold candidates, uncompressedCandidates. simpl.
    by apply flat_map_flattened_plain. }
  assert (NoDup (map Name (candidates e Uncompressed))) as Hdistinct
    by (by rewrite Hcands).
  assert ((FindAllChildren e Uncompressed).2 = []) as Herrs
    by (by apply errors_nil_iff).
  split.
  2:{ intros c Hc. apply distinct_names_resolved; [done | by rewrite Hcands]. }
  rewrite (surjective_pairing (FindAllChildren e Uncompressed)), Herrs.
  f_equal. apply map_eq. intros k.
  by rewrite FindAllChildren_lookup, Hcands, list_to_map_firstNamed.
Qed.

Lemma uncompressed_returns_declared_children_witness :
  FindAllChildren ScenarioA.interface Uncompressed =
    (list_to_map (map (fun c => (Name c, c)) (Dir ScenarioA.interface)), [])
  /\ forall c, c ∈ Dir ScenarioA.interface ->
       (FindAllChildren ScenarioA.interface Uncompressed).1 !! Name c = Some c.
Proof.
  apply (uncompressed_returns_declared_children ScenarioA.interface).
  - intros c Hc. simpl in Hc.
    apply elem_of_cons in Hc as [->|Hc]; [reflexivity|].
    apply list_elem_of_singleton in Hc as ->. reflexivity.
  - simpl. apply NoDup_cons. split; [|apply NoDup_singleton].
    intros Hin%list_elem_of_singleton. discriminate Hin.
Defined.

(** ** Excluding derived state *)

Lemma childCandidates_writable e deprio W name :
  (forall c, c ∈ Dir e ->
     IsConfig c = true /\ forall l, l ∈ Dir c -> IsConfig l = true) ->
  childCandidates e true deprio W name = childCandidates e false deprio W name.
Proof.
  intros Hwritable. unfold childCandidates.
  destruct (DirLookup e name) as [c|] eqn:Hlook; [|done].
  apply DirLookup_Some in Hlook as [Hc _].
  destruct (Hwritable c Hc) as [-> Hkids]. simpl.
  destruct (IsConfigState c); [done|]. destruct (IsDir c); [|done].
  destruct (singletonList (Children c)) as [l|] eqn:Hsingle; [|done].
  apply singletonList_Some in Hsingle as [Hsingle _].
  rewrite (Hkids l) by (change (Dir c) with (Children c); rewrite Hsingle; left).
  done.
Qed.

Lemma prioWhitelist_writable e prio :
  (forall c, c ∈ Dir e -> IsConfig c = true) ->
  prioWhitelist e true prio = prioWhitelist e false prio.
Proof.
  intros Hwritable. unfold prioWhitelist.
  destruct (IsContainer e || IsList e); [|done].
  destruct (DirLookup e prio) as [c|] eqn:Hlook; [|done].
  apply DirLookup_Some in Hlook as [Hc _]. by rewrite (Hwritable c Hc).
Qed.

(** X9: on a node that is writable, with writable children and writable
    grandchildren, excluding derived state changes nothing: the call returns
    the mapping and the errors of the policy that keeps derived state, with
    compression and without. *)
Theorem excluding_state_of_writable_tree e :
  IsConfig e = true ->
  (forall c, c ∈ Dir e ->
     IsConfig c = true /\ forall l, l ∈ Dir c -> IsConfig l = true) ->
  FindAllChildren e ExcludeDerivedState = FindAllChildren e PreferIntendedConfig
  /\ FindAllChildren e UncompressedExcludeDerivedState
     = FindAllChildren e Uncompressed.
Proof.
  intros He Hwritable. rewrite !FindAllChildren_addAll. unfold candidates.
  rewrite He. simpl. split; f_equal.
  - unfold compressedCandidates.
    rewrite prioWhitelist_writable by (intros c Hc; by apply Hwritable).
    apply flat_map_ext_elem. intros name _.
    by apply childCandidates_writable.
  - unfold uncompressedCandidates. apply flat_map_ext_elem. intros c Hc.
    by destruct (Hwritable c Hc) as [-> _].
Qed.

Lemma excluding_state_of_writable_tree_witness :
  FindAllChildren ScenarioC.interfaces ExcludeDerivedState
  = FindAllChildren ScenarioC.interfaces PreferIntendedConfig
  /\ FindAllChildren ScenarioC.interfaces UncompressedExcludeDerivedState
     = FindAllChildren ScenarioC.interfaces Uncompressed.
Proof.
  apply (excluding_state_of_writable_tree ScenarioC.interfaces).
  - reflexivity.
  - intros c Hc. simpl in Hc. apply list_elem_of_singleton in Hc as ->.
    split; [reflexivity|]. intros l Hl. simpl in Hl.
    apply list_elem_of_singleton in Hl as ->. reflexivity.
Defined.

(** ** The names a compressed call resolves *)

Lemma filter_not_in (W : gset string) (l : list Entry) :
  (forall g, g ∈ l -> Name g ∉ W) -> filter (fun g => Name g ∉ W) l = l.
Proof.
  induction l as [|c l IH]; intros Hfree; [done|].
  rewrite filter_cons, decide_True by (apply Hfree; left).
  rewrite IH; [done|]. intros g Hg. apply Hfree. by right.
Qed.

(** Without a whitelist the deprioritized name plays no part. *)
Lemma childCandidates_no_whitelist e excludeState deprio1 deprio2 name :
  childCandidates e excludeState deprio1 ∅ name
  = childCandidates e excludeState deprio2 ∅ name.
Proof.
  unfold childCandidates.
  destruct (DirLookup e name) as [c|]; [|done]. rewrite !(filter_not_in ∅) by set_solver.
  by destruct (String.eqb (Name c) deprio1), (String.eqb (Name c) deprio2).
Qed.

Lemma childCandidates_drop_whitelist e excludeState deprio W name v :
  v ∈ childCandidates e excludeState deprio W name ->
  v ∈ childCandidates e excludeState deprio ∅ name.
Proof.
  unfold childCandidates.
  destruct (DirLookup e name) as [c|]; [|done]. rewrite (filter_not_in ∅) by set_solver.
  destruct (excludeState && negb (IsConfig c)); [done|].
  destruct (IsConfigState c); [|done].
  destruct (String.eqb (Name c) deprio); [|done].
  by intros [_ ?]%list_elem_of_filter.
Qed.

Lemma childCandidates_not_whitelisted e excludeState deprio W name v :
  v ∈ childCandidates e excludeState deprio ∅ name -> Name v ∉ W ->
  v ∈ childCandidates e excludeState deprio W name.
Proof.
  unfold childCandidates.
  destruct (DirLookup e name) as [c|]; [|done]. rewrite (filter_not_in ∅) by set_solver.
  destruct (excludeState && negb (IsConfig c)); [done|].
  destruct (IsConfigState c); [|done].
  destruct (String.eqb (Name c) deprio); [|done].
  intros Hv HW. by apply list_elem_of_filter.
Qed.

(** A whitelisted name is the name of a candidate of the prioritized
    container. *)
Lemma whitelisted_name_offered e excludeState prio deprio W k :
  prio <> deprio -> k ∈ prioWhitelist e excludeState prio ->
  prio ∈ orderedChildNames e prio
  /\ exists v, v ∈ childCandidates e excludeState deprio W prio /\ Name v = k.
Proof.
  intros Hne. unfold prioWhitelist.
  destruct (IsContainer e || IsList e) eqn:He; [|by intros ?%elem_of_empty].
  destruct (DirLookup e prio) as [c|] eqn:Hc; [|by intros ?%elem_of_empty].
  destruct (excludeState && negb (IsConfig c)) eqn:Hskip;
    [by intros ?%elem_of_empty|].
  destruct (IsConfigState c) eqn:Hcs; [|by intros ?%elem_of_empty].
  intros (v & -> & Hv)%elem_of_list_to_set%list_elem_of_fmap.
  split; [by apply (prio_child_scheduled e prio c)|].
  exists v. split; [|done]. unfold childCandidates.
  rewrite Hc, Hskip, Hcs.
  apply DirLookup_Some in Hc as [_ ->].
  by assert (String.eqb prio deprio = false) as -> by by apply String.eqb_neq.
Qed.

(** The names of the candidates, the whitelist set aside. *)
Lemma compressed_names e excludeState prio deprio k :
  prio <> deprio ->
  k ∈ map Name (compressedCandidates e excludeState prio deprio) <->
  k ∈ map Name (flat_map (childCandidates e excludeState deprio ∅)
                         (orderedChildNames e prio)).
Proof.
  intros Hne. unfold compressedCandidates. rewrite !list_elem_of_fmap. split.
  - intros (v & -> & (name & Hname & Hv)%elem_of_flat_map). exists v.
    split; [done|]. apply elem_of_flat_map. exists name. split; [done|].
    by apply (childCandidates_drop_whitelist _ _ _
                (prioWhitelist e excludeState prio)).
  - intros (v & -> & (name & Hname & Hv)%elem_of_flat_map).
    destruct (decide (Name v ∈ prioWhitelist e excludeState prio)) as [HW|HW].
    + destruct (whitelisted_name_offered e excludeState prio deprio
                  (prioWhitelist e excludeState prio) (Name v) Hne HW)
        as (Hprio & v' & Hv' & Heq).
      exists v'. split; [done|]. apply elem_of_flat_map. eauto.
    + exists v. split; [done|]. apply elem_of_flat_map. exists name.
      split; [done|]. by apply childCandidates_not_whitelisted.
Qed.

Lemma childCandidates_excluding e deprio name v :
  v ∈ childCandidates e true deprio ∅ name ->
  v ∈ childCandidates e false deprio ∅ name.
Proof.
  unfold childCandidates.
  destruct (DirLookup e name) as [c|]; [|done]. simpl.
  destruct (negb (IsConfig c)); [by intros ?%elem_of_nil|].
  destruct (IsConfigState c); [done|]. destruct (IsDir c); [|done].
  destruct (singletonList (Children c)) as [l|]; [|done].
  rewrite andb_false_r.
  destruct (negb (IsConfig l) && true); [by intros ?%elem_of_nil | done].
Qed.

(** X10: excluding derived state never adds a name: the names resolved
    under [ExcludeDerivedState] are names resolved under
    [PreferIntendedConfig], and those resolved under
    [UncompressedExcludeDerivedState] are names resolved under
    [Uncompressed]. *)
Theorem excluding_state_adds_no_name e :
  dom (FindAllChildren e ExcludeDerivedState).1
    ⊆ dom (FindAllChildren e PreferIntendedConfig).1
  /\ dom (FindAllChildren e UncompressedExcludeDerivedState).1
       ⊆ dom (FindAllChildren e Uncompressed).1.
Proof.
  rewrite !FindAllChildren_dom. unfold candidates. simpl.
  destruct (negb (IsConfig e)); [split; set_solver|]. split.
  - intros k. rewrite !elem_of_list_to_set, !compressed_names by done.
    rewrite !list_elem_of_fmap.
    intros (v & -> & (name & Hname & Hv)%elem_of_flat_map). exists v.
    split; [done|]. apply elem_of_flat_map. exists name. split; [done|].
    by apply childCandidates_excluding.
  - intros k. rewrite !elem_of_list_to_set, !list_elem_of_fmap.
    intros (v & -> & (c & Hc & Hv)%elem_of_flat_map). exists v.
    split; [done|]. apply elem_of_flat_map. exists c. split; [done|].
    simpl in *. by destruct (negb (IsConfig c)); [apply elem_of_nil in Hv|].
Qed.

Lemma orderedChildNames_names e prio name :
  IsContainer e || IsList e = true ->
  name ∈ orderedChildNames e prio <-> name ∈ map Name (Children e).
Proof.
  intros He. split.
  - intros (c & Hc & <-)%orderedChildNames_declared.
    apply DirLookup_Some in Hc as [Hc _]. by apply list_elem_of_fmap_2.
  - intros (c & -> & Hc)%list_elem_of_fmap.
    destruct (decide (Name c = prio)) as [<-|Hne].
    + destruct (DirLookup e (Name c)) as [c'|] eqn:Hlook.
      * by apply (prio_child_scheduled e (Name c) c').
      * unfold DirLookup in Hlook. apply list_elem_of_In in Hc.
        pose proof (find_none _ _ Hlook c Hc) as Hmiss. simpl in Hmiss.
        by rewrite String.eqb_refl in Hmiss.
    + by apply other_child_scheduled.
Qed.

Lemma GetOrderedEntryKeys_dom (m1 m2 : gmap string Entry) :
  dom m1 = dom m2 -> GetOrderedEntryKeys m1 = GetOrderedEntryKeys m2.
Proof.
  intros Hdom. unfold GetOrderedEntryKeys.
  apply orderedKeysVisiting_Permutation.
  apply NoDup_Permutation; try apply NoDup_fst_map_to_list.
  intros k. by rewrite !elem_of_keys, <- !elem_of_dom, Hdom.
Qed.

(** X11: for a container or a list, preferring the [config] or the [state]
    container decides which node a name resolves to, not which names are
    resolved: both policies return mappings with the same keys, and
    [GetOrderedEntryKeys] lists them alike. *)
Theorem preference_keeps_names e :
  IsContainer e || IsList e = true ->
  dom (FindAllChildren e PreferIntendedConfig).1
    = dom (FindAllChildren e PreferOperationalState).1
  /\ GetOrderedEntryKeys (FindAllChildren e PreferIntendedConfig).1
     = GetOrderedEntryKeys (FindAllChildren e PreferOperationalState).1.
Proof.
  intros He.
  assert (dom (FindAllChildren e PreferIntendedConfig).1
          = dom (FindAllChildren e PreferOperationalState).1) as Hdom.
  { rewrite !FindAllChildren_dom. unfold candidates. simpl.
    apply set_eq. intros k.
    rewrite !elem_of_list_to_set, !compressed_names by done.
    rewrite !list_elem_of_fmap.
    split; intros (v & -> & (name & Hname & Hv)%elem_of_flat_map); exists v;
      (split; [done|]); apply elem_of_flat_map; exists name.
    - split; [by apply orderedChildNames_names, (orderedChildNames_names e "config")|].
      by rewrite (childCandidates_no_whitelist _ _ _ "state").
    - split; [by apply orderedChildNames_names, (orderedChildNames_names e "state")|].
      by rewrite (childCandidates_no_whitelist _ _ _ "config"). }
  split; [done | by apply GetOrderedEntryKeys_dom].
Qed.

Lemma preference_keeps_names_witness :
  dom (FindAllChildren ScenarioA.interface PreferIntendedConfig).1
    = dom (FindAllChildren ScenarioA.interface PreferOperationalState).1
  /\ GetOrderedEntryKeys
       (FindAllChildren ScenarioA.interface PreferIntendedConfig).1
     = GetOrderedEntryKeys
         (FindAllChildren ScenarioA.interface PreferOperationalState).1.
Proof.
  apply (preference_keeps_names ScenarioA.interface). reflexivity.
Defined.

(** ** Where the resolved children lie *)

(** X12: in a well-linked tree every resolved child is a proper descendant
    of the queried node: its chain of ancestors ends with the node and the
    ancestors of the node. *)
Theorem resolved_child_is_descendant e p k v :
  wellLinked e = true -> (FindAllChildren e p).1 !! k = Some v ->
  suffix (mkAncestor (Name e) (Config e) :: Parent e) (Parent v).
Proof.
  intros Hwf [Hcand _]%FindAllChildren_candidate.
  assert (forall x prio deprio,
             v ∈ compressedCandidates e x prio deprio ->
             suffix (mkAncestor (Name e) (Config e) :: Parent e) (Parent v))
    as Hcompressed.
  { intros x prio deprio (name & _ & Hv)%compressedCandidates_inv.
    apply childCandidates_inv in Hv as (c & Hlook & _ & Hcase).
    apply DirLookup_Some in Hlook as [Hc _].
    pose proof (linked_child _ _ _ Hwf Hc) as Hlc.
    destruct Hcase as [(_ & Hv & _)|[(_ & _ & Hv & _)|[(_ & _ & _ & Hv)
                                                      |(_ & _ & -> & _)]]].
    - eapply suffix_cons_l, grandchild_below; done.
    - apply singletonList_Some in Hv as [Hv _].
      assert (v ∈ Dir c) as Hvc
        by (change (Dir c) with (Children c); rewrite Hv; left).
      rewrite (linked_Parent _ _ (linked_child _ _ _ Hlc Hvc)).
      by apply suffix_cons_r.
    - by apply (flattened_below _ c).
    - by rewrite (linked_Parent _ _ Hlc). }
  unfold candidates in Hcand.
  destruct (StateExcluded p && negb (IsConfig e));
    [by apply elem_of_nil in Hcand|].
  destruct p; eauto.
  all: apply uncompressedCandidates_inv in Hcand as (c & Hc & _ & Hv);
    apply (flattened_below _ c); [by apply linked_child | done].
Qed.

Lemma resolved_child_is_descendant_witness :
  suffix (mkAncestor (Name ScenarioA.interface) (Config ScenarioA.interface)
            :: Parent ScenarioA.interface)
         (Parent ScenarioA.oper_state).
Proof.
  apply (resolved_child_is_descendant ScenarioA.interface
           PreferIntendedConfig "oper-state" ScenarioA.oper_state).
  - reflexivity.
  - vm_compute. reflexivity.
Defined.

(** X13: without compression every returned node is a declared child, or
    what a declared choice or case flattens to; when derived state is
    excluded that declared child is writable. *)
Theorem uncompressed_child_provenance e p k v :
  CompressEnabled p = false -> (FindAllChildren e p).1 !! k = Some v ->
  exists c, c ∈ Dir e /\ v ∈ flattened c
            /\ (IsChoiceOrCase c = false -> v = c)
            /\ (StateExcluded p = true -> IsConfig c = true).
Proof.
  intros Hp [Hcand _]%FindAllChildren_candidate.
  unfold candidates in Hcand.
  destruct (StateExcluded p && negb (IsConfig e));
    [by apply elem_of_nil in Hcand|].
  destruct p; try discriminate Hp.
  all: apply uncompressedCandidates_inv in Hcand as (c & Hc & Hskip & Hv);
    exists c; split; [done|]; split; [done|]; split.
  all: try (intros Hplain; unfold flattened in Hv; rewrite Hplain in Hv;
            by apply list_elem_of_singleton in Hv).
  - done.
  - intros _. simpl in Hskip. by apply negb_false_iff in Hskip.
Qed.

Lemma uncompressed_child_provenance_witness :
  exists c, c ∈ Dir ScenarioA.interface /\ ScenarioA.config ∈ flattened c
            /\ (IsChoiceOrCase c = false -> ScenarioA.config = c)
            /\ (StateExcluded UncompressedExcludeDerivedState = true ->
                IsConfig c = true).
Proof.
  apply (uncompressed_child_provenance ScenarioA.interface
           UncompressedExcludeDerivedState "config" ScenarioA.config).
  - reflexivity.
  - vm_compute. reflexivity.
Defined.

(** ** The schedule of the compressed loop *)

Lemma filter_other_names_id prio (l : list Entry) :
  (forall g, g ∈ l -> Name g <> prio) ->
  filter (fun child => negb (String.eqb (Name child) prio)) l = l.
Proof.
  induction l as [|c l IH]; intros Hfree; [done|].
  rewrite filter_cons, decide_True, IH.
  - done.
  - intros g Hg. apply Hfree. by right.
  - apply negb_prop_intro. intros Heq%Is_true_eq_true%String.eqb_eq.
    by apply (Hfree c); [left|].
Qed.

Lemma other_names_filter prio (l : list Entry) :
  map Name (filter (fun child => negb (String.eqb (Name child) prio)) l)
  = filter (fun name => name <> prio) (map Name l).
Proof.
  induction l as [|c l IH]; [done|]. simpl map at 2.
  rewrite !filter_cons, <- IH.
  destruct (String.eqb_spec (Name c) prio) as [Heq|Hne].
  - rewrite decide_False by (simpl; tauto). by rewrite decide_False by tauto.
  - rewrite decide_True by (simpl; tauto). by rewrite decide_True by done.
Qed.

Lemma prio_first_Permutation (c : Entry) (l : list Entry) :
  NoDup (map Name l) -> c ∈ l ->
  Name c :: map Name
              (filter (fun child => negb (String.eqb (Name child) (Name c))) l)
  ≡ₚ map Name l.
Proof.
  induction l as [|x l IH]; intros Hnodup Hc; [by apply elem_of_nil in Hc|].
  simpl in Hnodup. apply NoDup_cons in Hnodup as [Hx Hnodup].
  rewrite filter_cons.
  destruct (String.eqb_spec (Name x) (Name c)) as [Heq|Hne].
  - rewrite decide_False by (simpl; tauto). rewrite <- Heq.
    rewrite filter_other_names_id; [done|].
    intros g Hg Hgx. apply Hx. rewrite <- Hgx. by apply list_elem_of_fmap_2.
  - rewrite decide_True by (simpl; tauto). simpl.
    apply elem_of_cons in Hc as [->|Hc]; [done|].
    rewrite Permutation_swap. by rewrite IH.
Qed.

(** X14: the loop of the compressed path schedules every declared child of
    a container or a list once (the prioritized container first, when it is
    declared), and every declared child but the prioritized one, in
    declaration order, for any other node. *)
Theorem schedule_covers_children e prio :
  (IsContainer e || IsList e = true -> NoDup (map Name (Dir e)) ->
   orderedChildNames e prio ≡ₚ map Name (Dir e))
  /\ (IsContainer e || IsList e = true -> prio ∈ map Name (Dir e) ->
      head (orderedChildNames e prio) = Some prio)
  /\ (IsContainer e || IsList e = false ->
      orderedChildNames e prio
      = filter (fun name => name <> prio) (map Name (Dir e))).
Proof.
  unfold orderedChildNames, Children. split; [|split].
  - intros -> Hnodup. destruct (DirLookup e prio) as [c|] eqn:Hc.
    + apply DirLookup_Some in Hc as [Hc <-]. by apply prio_first_Permutation.
    + rewrite filter_other_names_id; [done|].
      intros g Hg Heq. unfold DirLookup in Hc. apply list_elem_of_In in Hg.
      pose proof (find_none _ _ Hc g Hg) as Hmiss. simpl in Hmiss.
      apply String.eqb_neq in Hmiss. done.
  - intros -> (c & -> & Hc)%list_elem_of_fmap.
    destruct (DirLookup e (Name c)) as [c'|] eqn:Hlook; [done|].
    unfold DirLookup in Hlook. apply list_elem_of_In in Hc.
    pose proof (find_none _ _ Hlook c Hc) as Hmiss. simpl in Hmiss.
    by rewrite String.eqb_refl in Hmiss.
  - intros ->. simpl. apply other_names_filter.
Qed.

(** ** The helpers of the guard *)

Lemma addAll_only_adds st cs :
  st.1 ⊆ (addAll st cs).1 /\ st.2 `prefix_of` (addAll st cs).2.
Proof.
  split.
  - apply map_subseteq_spec. intros k v Hk. by rewrite addAll_lookup, Hk.
  - rewrite addAll_errs. by apply prefix_app_r.
Qed.

(** X15: the guard and its two helpers only add: the entries of the mapping
    they are given stay as they are, and the errors they are given stay at
    the head of the list they return. *)
Theorem guard_helpers_only_add (m : gmap string Entry) e k v duplist errs :
  (m ⊆ (addNewChild m k v errs).1
   /\ errs `prefix_of` (addNewChild m k v errs).2)
  /\ (m ⊆ (addNonChoiceChildren m e errs).1
      /\ errs `prefix_of` (addNonChoiceChildren m e errs).2)
  /\ (m ⊆ (addNonChoiceChildrenDuplist m e duplist errs).1
      /\ errs `prefix_of` (addNonChoiceChildrenDuplist m e duplist errs).2).
Proof.
  split; [|split].
  - unfold addNewChild. destruct (m !! k) eqn:Hk; simpl.
    + split; [done | by apply prefix_app_r].
    + split; [by apply insert_subseteq | done].
  - rewrite addNonChoiceChildren_addAll. apply (addAll_only_adds (m, errs)).
  - rewrite addNonChoiceChildrenDuplist_addAll.
    apply (addAll_only_adds (m, errs)).
Qed.

(** X16: [addNonChoiceChildrenDuplist] never binds a name of the whitelist,
    whether the mapping has it or not, and reports nothing for it: with the
    whitelisted nodes left out of what the choice or case flattens to, the
    guard is applied as [addNonChoiceChildren] applies it; with an empty
    whitelist the two functions agree. *)
Theorem duplist_names_skipped (m : gmap string Entry) e duplist errs :
  (forall k, k ∈ duplist ->
     (addNonChoiceChildrenDuplist m e duplist errs).1 !! k = m !! k)
  /\ addNonChoiceChildrenDuplist m e duplist errs
     = addAll (m, errs)
         (filter (fun n => Name n ∉ duplist) (FindFirstNonChoiceOrCase e))
  /\ addNonChoiceChildrenDuplist m e ∅ errs = addNonChoiceChildren m e errs.
Proof.
  split; [|split].
  - intros k Hk. rewrite addNonChoiceChildrenDuplist_addAll, addAll_lookup.
    simpl. destruct (m !! k); [done|].
    destruct (firstNamed k _) as [n|] eqn:Hn; [|done].
    apply firstNamed_Some in Hn as [[Hfree _]%list_elem_of_filter <-]. done.
  - apply addNonChoiceChildrenDuplist_addAll.
  - rewrite addNonChoiceChildrenDuplist_addAll, addNonChoiceChildren_addAll.
    by rewrite (filter_not_in ∅) by set_solver.
Qed.

(** ** What compression lifts and what it removes *)

(** X17: under a compressed policy that keeps derived state, nothing a
    [config] or [state] container of a container or list declares is lost:
    the name of each of its children (of what the child flattens to, for a
    choice or a case) is resolved. *)
Theorem config_state_names_resolved e p name c v :
  CompressEnabled p = true -> StateExcluded p = false ->
  IsContainer e || IsList e = true ->
  DirLookup e name = Some c -> IsConfigState c = true ->
  v ∈ flat_map flattened (Children c) ->
  is_Some ((FindAllChildren e p).1 !! Name v).
Proof.
  intros Hp Hx He Hc Hcs Hv.
  destruct (compressed_policy_names p Hp) as (Hne & _ & _).
  apply elem_of_dom. rewrite FindAllChildren_dom, candidates_compressed by done.
  rewrite Hx. simpl. apply elem_of_list_to_set, compressed_names; [done|].
  apply list_elem_of_fmap_2, elem_of_flat_map. exists name. split.
  - apply orderedChildNames_names; [done|].
    apply DirLookup_Some in Hc as [Hc <-]. by apply list_elem_of_fmap_2.
  - unfold childCandidates. rewrite Hc, Hcs. simpl.
    rewrite (filter_not_in ∅) by set_solver.
    by destruct (String.eqb (Name c) (deprioData p)).
Qed.

Lemma config_state_names_resolved_witness :
  is_Some ((FindAllChildren ScenarioA.interface PreferIntendedConfig).1
             !! Name ScenarioA.oper_state).
Proof.
  apply (config_state_names_resolved ScenarioA.interface PreferIntendedConfig
           "state" ScenarioA.state ScenarioA.oper_state); try reflexivity.
  simpl. apply list_elem_of_further, list_elem_of_here.
Defined.

(** X18: under compression every resolved child comes from a declared
    child [c] that is writable when derived state is excluded, in one of five
    ways: it is what a child of [c] flattens to, [c] being a config/state
    container; it is the single list below the directory [c]; it is what the
    choice or case [c] flattens to; it is the directory [c] itself, which is
    then neither a config/state container, nor around a single list, nor a
    choice or case; or it is [c] itself, not a directory, and not a leafref
    when the queried node is a list. *)
Theorem compressed_child_provenance e p k v :
  CompressEnabled p = true -> (FindAllChildren e p).1 !! k = Some v ->
  exists name c,
    DirLookup e name = Some c
    /\ (StateExcluded p = true -> IsConfig e = true /\ IsConfig c = true)
    /\ ((IsConfigState c = true /\ v ∈ flat_map flattened (Children c))
        \/ (IsConfigState c = false /\ IsDir c = true /\ Children c = [v]
            /\ IsList v = true
            /\ (StateExcluded p = true -> IsConfig v = true))
        \/ (IsConfigState c = false /\ IsChoiceOrCase c = true
            /\ singletonList (Children c) = None
            /\ v ∈ FindFirstNonChoiceOrCase c)
        \/ (v = c /\ IsConfigState c = false /\ IsDir c = true
            /\ IsChoiceOrCase c = false
            /\ singletonList (Children c) = None)
        \/ (v = c /\ IsConfigState c = false /\ IsDir c = false
            /\ IsList e && IsLeafRef c = false)).
Proof.
  intros Hp [Hcand _]%FindAllChildren_candidate.
  rewrite candidates_compressed in Hcand by done.
  destruct (StateExcluded p && negb (IsConfig e)) eqn:Hguard;
    [by apply elem_of_nil in Hcand|].
  apply compressedCandidates_inv in Hcand as (name & _ & Hv).
  apply childCandidates_inv in Hv as (c & Hlook & Hskip & Hcase).
  exists name, c. split; [done|]. split.
  { intros Hx. rewrite Hx in Hguard, Hskip. simpl in *.
    by apply negb_false_iff in Hguard, Hskip. }
  destruct Hcase as [(Hcs & Hv & _)|[(Hcs & Hdir & Hv & Hvis)
                                    |[(Hcs & Hdir & Hs & Hv)
                                     |(Hcs & Hdir & -> & Hl)]]].
  - by left.
  - right. left. apply singletonList_Some in Hv as [Hv Hl].
    do 4 (split; [done|]). intros Hx. rewrite Hx, andb_true_r in Hvis.
    by apply negb_false_iff in Hvis.
  - unfold flattened in Hv. destruct (IsChoiceOrCase c) eqn:Hw.
    + right. right. left. done.
    + apply list_elem_of_singleton in Hv as ->. right. right. right. left.
      done.
  - right. right. right. right. done.
Qed.

Lemma compressed_child_provenance_witness :
  exists name c,
    DirLookup ScenarioC.interfaces name = Some c
    /\ (StateExcluded PreferIntendedConfig = true ->
        IsConfig ScenarioC.interfaces = true /\ IsConfig c = true)
    /\ ((IsConfigState c = true
         /\ ScenarioC.interface_list ∈ flat_map flattened (Children c))
        \/ (IsConfigState c = false /\ IsDir c = true
            /\ Children c = [ScenarioC.interface_list]
            /\ IsList ScenarioC.interface_list = true
            /\ (StateExcluded PreferIntendedConfig = true ->
                IsConfig ScenarioC.interface_list = true))
        \/ (IsConfigState c = false /\ IsChoiceOrCase c = true
            /\ singletonList (Children c) = None
            /\ ScenarioC.interface_list ∈ FindFirstNonChoiceOrCase c)
        \/ (ScenarioC.interface_list = c /\ IsConfigState c = false
            /\ IsDir c = true /\ IsChoiceOrCase c = false
            /\ singletonList (Children c) = None)
        \/ (ScenarioC.interface_list = c /\ IsConfigState c = false
            /\ IsDir c = false
            /\ IsList ScenarioC.interfaces && IsLeafRef c = false)).
Proof.
  apply (compressed_child_provenance ScenarioC.interfaces PreferIntendedConfig
           "interface-list" ScenarioC.interface_list).
  - reflexivity.
  - vm_compute. reflexivity.
Defined.

(** X19: under compression no [config] or [state] container that a
    well-linked node declares is itself resolved. *)
Theorem config_state_container_removed e p d k :
  wellLinked e = true -> CompressEnabled p = true ->
  d ∈ Dir e -> IsConfigState d = true ->
  (FindAllChildren e p).1 !! k <> Some d.
Proof.
  intros Hwf Hp Hd Hcs [Hcand _]%FindAllChildren_candidate.
  rewrite candidates_compressed in Hcand by done.
  destruct (StateExcluded p && negb (IsConfig e));
    [by apply elem_of_nil in Hcand|].
  apply declared_child_candidate in Hcand as (name & _ & Hcs' & _);
    [congruence | done | done].
Qed.

Lemma config_state_container_removed_witness :
  (FindAllChildren ScenarioA.interface PreferOperationalState).1 !! "state"
  <> Some ScenarioA.state.
Proof.
  apply (config_state_container_removed ScenarioA.interface
           PreferOperationalState ScenarioA.state "state"); try reflexivity.
  apply list_elem_of_further, list_elem_of_here.
Defined.

(** X20: the preference matters only where a [config] or [state] child is
    declared: on a node that declares neither name, [PreferIntendedConfig]
    and [PreferOperationalState] return the same mapping and the same
    errors. *)
Theorem preference_without_config_state e :
  (forall c, c ∈ Dir e -> Name c <> "config" /\ Name c <> "state") ->
  FindAllChildren e PreferIntendedConfig
  = FindAllChildren e PreferOperationalState.
Proof.
  intros Hnames. rewrite !FindAllChildren_addAll. f_equal.
  unfold candidates. simpl.
  assert (forall prio, prio = "config" \/ prio = "state" ->
            DirLookup e prio = None) as Hmiss.
  { intros prio Hprio. destruct (DirLookup e prio) as [c|] eqn:Hc; [|done].
    apply DirLookup_Some in Hc as [Hc Heq].
    destruct (Hnames c Hc), Hprio; congruence. }
  assert (forall prio, prio = "config" \/ prio = "state" ->
            orderedChildNames e prio = map Name (Dir e)) as Hsched.
  { intros prio Hprio. unfold orderedChildNames, Children.
    rewrite (Hmiss prio Hprio), filter_other_names_id.
    - by destruct (IsContainer e || IsList e).
    - intros g Hg. destruct (Hnames g Hg), Hprio; congruence. }
  unfold compressedCandidates, prioWhitelist.
  rewrite !Hsched, !Hmiss by auto.
  destruct (IsContainer e || IsList e);
    apply flat_map_ext_elem; intros name _;
    apply childCandidates_no_whitelist.
Qed.

Lemma preference_without_config_state_witness :
  FindAllChildren ScenarioC.interfaces PreferIntendedConfig
  = FindAllChildren ScenarioC.interfaces PreferOperationalState.
Proof.
  apply (preference_without_config_state ScenarioC.interfaces).
  intros c Hc. simpl in Hc. apply list_elem_of_singleton in Hc as ->.
  split; discriminate.
Defined.

(** * The order in which the ranges visit the nodes *)

(** ** For any visit, the loops offer the candidates of that visit *)

Section VisitingOrder.
Variable v : Visit.

Lemma addNonChoiceChildren_addAll_visiting m e errs :
  (Visiting.addNonChoiceChildren v) m e errs =
  addAll (m, errs) ((visitFirstNonChoiceOrCase v) e).
Proof. reflexivity. Qed.

Lemma addNonChoiceChildrenDuplist_addAll_visiting m e duplist errs :
  (Visiting.addNonChoiceChildrenDuplist v) m e duplist errs =
  addAll (m, errs)
    (filter (fun n => Name n ∉ duplist) ((visitFirstNonChoiceOrCase v) e)).
Proof.
  unfold Visiting.addNonChoiceChildrenDuplist, addAll.
  generalize (m, errs). induction ((visitFirstNonChoiceOrCase v) e) as [|n l IH];
    intros st; [done|].
  simpl. rewrite filter_cons. case_bool_decide as Hn.
  - rewrite decide_False by (intros Hc; by apply Hc). apply IH.
  - rewrite decide_True by done. simpl. apply IH.
Qed.

Lemma findAllChildrenWithoutCompression_addAll_visiting e excludeState :
  (Visiting.findAllChildrenWithoutCompression v) e excludeState =
  addAll (∅, []) ((Visiting.uncompressedCandidates v) e excludeState).
Proof.
  unfold Visiting.findAllChildrenWithoutCompression, Visiting.uncompressedCandidates.
  generalize ((∅, []) : gmap string Entry * list string).
  induction ((visitChildren v) e) as [|c l IH]; intros st; [done|].
  rewrite flat_map_cons, addAll_app, <- IH. simpl. f_equal.
  destruct (excludeState && negb (IsConfig c)); [done|].
  unfold Visiting.flattened. destruct (IsChoiceOrCase c); by destruct st.
Qed.

Section CompressedVisiting.
Variables (e : Entry) (excludeState : bool) (prioData deprioData : string).
Hypothesis prio_deprio : prioData <> deprioData.

Local Abbreviation step := ((Visiting.childStep v) e excludeState prioData deprioData).
Local Abbreviation inner c := ((Visiting.configStateStep v) c prioData deprioData).

Lemma configState_deprio_visiting c gs : Name c = deprioData -> forall st,
  foldl (inner c) st gs =
  withChildren st
    (addAll (directChildren st, errs st)
       (filter (fun g => Name g ∉ prioNames st) (flat_map (Visiting.flattened v) gs))).
Proof.
  intros Hc. induction gs as [|g gs IH]; intros st.
  - simpl. apply eq_sym, loop_state_eta.
  - simpl foldl. rewrite IH, flat_map_cons, filter_app, addAll_app.
    unfold Visiting.configStateStep, withChildren. rewrite Hc, String.eqb_refl.
    assert (String.eqb deprioData prioData = false) as ->
      by (apply String.eqb_neq; congruence).
    simpl.
    assert ((if IsChoiceOrCase g
             then (Visiting.addNonChoiceChildrenDuplist v) (directChildren st) g
                    (prioNames st) (errs st)
             else if negb (bool_decide (Name g ∈ prioNames st))
                  then addNewChild (directChildren st) (Name g) g (errs st)
                  else (directChildren st, errs st))
            = addAll (directChildren st, errs st)
                (filter (fun g => Name g ∉ prioNames st) ((Visiting.flattened v) g)))
      as ->.
    { unfold Visiting.flattened. destruct (IsChoiceOrCase g).
      - apply addNonChoiceChildrenDuplist_addAll_visiting.
      - rewrite filter_cons, filter_nil. case_bool_decide; simpl.
        + by rewrite decide_False by tauto.
        + by rewrite decide_True by done. }
    by destruct (addAll (directChildren st, errs st) _).
Qed.

Lemma configState_other_visiting c gs : Name c <> deprioData -> forall st,
  foldl (inner c) st gs =
  mkLoop (addAll (directChildren st, errs st) (flat_map (Visiting.flattened v) gs)).1
    (if String.eqb (Name c) prioData
     then list_to_set (map Name (flat_map (Visiting.flattened v) gs)) ∪ prioNames st
     else prioNames st)
    (addAll (directChildren st, errs st) (flat_map (Visiting.flattened v) gs)).2.
Proof.
  intros Hc. apply String.eqb_neq in Hc.
  induction gs as [|g gs IH]; intros st.
  - simpl. destruct (String.eqb (Name c) prioData); destruct st; simpl;
      f_equal; set_solver.
  - simpl foldl. rewrite IH, flat_map_cons, addAll_app.
    unfold Visiting.configStateStep. rewrite Hc. simpl.
    assert ((if IsChoiceOrCase g
             then (Visiting.addNonChoiceChildren v) (directChildren st) g (errs st)
             else addNewChild (directChildren st) (Name g) g (errs st))
            = addAll (directChildren st, errs st) ((Visiting.flattened v) g)) as ->.
    { unfold Visiting.flattened. by destruct (IsChoiceOrCase g). }
    destruct (addAll (directChildren st, errs st) ((Visiting.flattened v) g))
      as [m1 errs1] eqn:Hadd. simpl.
    f_equal. destruct (String.eqb (Name c) prioData); [|done].
    rewrite map_app, list_to_set_app_L.
    unfold Visiting.flattened at 2. destruct (IsChoiceOrCase g).
    + rewrite record_names. set_solver.
    + simpl. set_solver.
Qed.

Lemma childStep_other_visiting st name : name <> prioData ->
  step st name =
  withChildren st
    (addAll (directChildren st, errs st)
       ((Visiting.childCandidates v) e excludeState deprioData (prioNames st) name)).
Proof.
  intros Hname. unfold Visiting.childStep, Visiting.childCandidates.
  destruct (DirLookup e name) as [c|] eqn:Hlook;
    [|by rewrite withChildren_id].
  apply DirLookup_Some in Hlook as [_ Hc].
  destruct (excludeState && negb (IsConfig c)); [by rewrite withChildren_id|].
  destruct (IsConfigState c).
  { destruct (String.eqb_spec (Name c) deprioData) as [Hd|Hd].
    - by apply configState_deprio_visiting.
    - rewrite configState_other_visiting by done.
      assert (String.eqb (Name c) prioData = false) as ->
        by (apply String.eqb_neq; congruence).
      done. }
  destruct (IsDir c).
  { destruct (singletonList ((visitChildren v) c)) as [l|].
    - destruct (negb (IsConfig l) && excludeState);
        [by rewrite withChildren_id | done].
    - unfold Visiting.flattened. by destruct (IsChoiceOrCase c). }
  destruct (negb (IsList e && IsLeafRef c));
    [done | by rewrite withChildren_id].
Qed.

Lemma childStep_prio_visiting W :
  step (mkLoop ∅ ∅ []) prioData =
  mkLoop
    (addAll (∅, []) ((Visiting.childCandidates v) e excludeState deprioData W prioData)).1
    (match DirLookup e prioData with
     | Some c =>
         if excludeState && negb (IsConfig c) then ∅
         else if IsConfigState c
              then list_to_set (map Name (flat_map (Visiting.flattened v) ((visitChildren v) c)))
              else ∅
     | None => ∅
     end)
    (addAll (∅, []) ((Visiting.childCandidates v) e excludeState deprioData W prioData)).2.
Proof.
  unfold Visiting.childStep, Visiting.childCandidates.
  destruct (DirLookup e prioData) as [c|] eqn:Hlook; [|done].
  apply DirLookup_Some in Hlook as [_ Hc].
  destruct (excludeState && negb (IsConfig c)); [done|].
  destruct (IsConfigState c).
  { assert (Name c <> deprioData) as Hd by congruence.
    rewrite configState_other_visiting by done.
    apply String.eqb_neq in Hd. rewrite Hd, Hc, String.eqb_refl. simpl.
    by rewrite (right_id_L ∅ (∪)). }
  destruct (IsDir c).
  { destruct (singletonList ((visitChildren v) c)) as [l|].
    - by destruct (negb (IsConfig l) && excludeState).
    - unfold Visiting.flattened. by destruct (IsChoiceOrCase c). }
  by destruct (negb (IsList e && IsLeafRef c)).
Qed.

Lemma loop_other_visiting names : Forall (fun name => name <> prioData) names ->
  forall st,
  foldl step st names =
  withChildren st
    (addAll (directChildren st, errs st)
       (flat_map ((Visiting.childCandidates v) e excludeState deprioData (prioNames st))
                 names)).
Proof.
  induction 1 as [|name names Hname _ IH]; intros st.
  - by rewrite withChildren_id.
  - simpl foldl. rewrite IH, childStep_other_visiting by done.
    rewrite flat_map_cons, addAll_app. unfold withChildren. simpl.
    by destruct (addAll (directChildren st, errs st) _).
Qed.

Lemma other_names_visiting :
  Forall (fun name => name <> prioData)
    (map Name (filter (fun child => negb (String.eqb (Name child) prioData))
                      ((visitChildren v) e))).
Proof.
  apply Forall_forall. intros name Hin.
  apply list_elem_of_fmap in Hin as (c & -> & Hc).
  apply list_elem_of_filter in Hc as [Hc _].
  apply negb_prop_elim in Hc. intros Heq. apply Hc.
  apply Is_true_eq_left. by apply String.eqb_eq.
Qed.

Lemma compressedChildren_addAll_visiting :
  (Visiting.compressedChildren v) e excludeState prioData deprioData =
  addAll (∅, []) ((Visiting.compressedCandidates v) e excludeState prioData deprioData).
Proof.
  unfold Visiting.compressedChildren, Visiting.compressedCandidates, Visiting.orderedChildNames,
    Visiting.prioWhitelist.
  rewrite foldl_app, flat_map_app.
  destruct (IsContainer e || IsList e).
  - destruct (DirLookup e prioData) as [c|] eqn:Hlook.
    + simpl foldl. rewrite loop_other_visiting by apply other_names_visiting.
      rewrite (childStep_prio_visiting
                 (if excludeState && negb (IsConfig c) then ∅
                  else if IsConfigState c
                       then list_to_set
                              (map Name (flat_map (Visiting.flattened v) ((visitChildren v) c)))
                       else ∅)).
      rewrite Hlook. simpl. rewrite <- !surjective_pairing.
      by rewrite app_nil_r, addAll_app.
    + simpl foldl. rewrite loop_other_visiting by apply other_names_visiting. simpl.
      by rewrite <- surjective_pairing.
  - simpl foldl. rewrite loop_other_visiting by apply other_names_visiting. simpl.
    by rewrite <- surjective_pairing.
Qed.

End CompressedVisiting.

Lemma FindAllChildren_addAll_visiting e p :
  (Visiting.FindAllChildren v) e p = addAll (∅, []) ((Visiting.candidates v) e p).
Proof.
  unfold Visiting.FindAllChildren, Visiting.candidates. rewrite excludeState_StateExcluded.
  destruct (StateExcluded p && negb (IsConfig e)); [done|].
  destruct p; first [apply findAllChildrenWithoutCompression_addAll_visiting
                    | by apply compressedChildren_addAll_visiting].
Qed.

End VisitingOrder.

(** ** Two visits of the same nodes *)

(** The functions of the package are their counterparts for the visit in
    declaration order. *)
Lemma FindAllChildren_declared e p :
  Visiting.FindAllChildren declared e p = FindAllChildren e p.
Proof. reflexivity. Qed.

Lemma declared_permitted : permitted declared.
Proof. intros e. split; reflexivity. Qed.

Lemma reversed_permitted : permitted reversed.
Proof. intros e. split; apply reverse_Permutation. Qed.

Lemma flat_map_pointwise {A B} (f g : A -> list B) (l : list A) :
  (forall x, f x ≡ₚ g x) -> flat_map f l ≡ₚ flat_map g l.
Proof.
  intros Hfg. induction l as [|x l IH]; [done|].
  rewrite !flat_map_cons. by rewrite IH, (Hfg x).
Qed.

Lemma flat_map_Permutation {A B} (f g : A -> list B) (l1 l2 : list A) :
  l1 ≡ₚ l2 -> (forall x, f x ≡ₚ g x) -> flat_map f l1 ≡ₚ flat_map g l2.
Proof.
  intros Hl Hfg. etrans; [by apply flat_map_pointwise|].
  by apply Permutation_flat_map.
Qed.

Lemma singletonList_Permutation (l1 l2 : list Entry) :
  l1 ≡ₚ l2 -> singletonList l1 = singletonList l2.
Proof.
  intros Hl. destruct l1 as [|x [|y l1]].
  - by apply Permutation_nil_l in Hl as ->.
  - by apply Permutation_singleton_l in Hl as ->.
  - pose proof (Permutation_length Hl) as Hlen.
    destruct l2 as [|x' [|y' l2]]; simpl in Hlen; try lia. done.
Qed.

Section TwoVisits.
Variables v1 v2 : Visit.
Hypothesis permitted1 : permitted v1.
Hypothesis permitted2 : permitted v2.

Lemma children_two_visits e : visitChildren v1 e ≡ₚ visitChildren v2 e.
Proof.
  destruct (permitted1 e) as [-> _]. by destruct (permitted2 e) as [-> _].
Qed.

Lemma flattened_two_visits g :
  Visiting.flattened v1 g ≡ₚ Visiting.flattened v2 g.
Proof.
  unfold Visiting.flattened. destruct (IsChoiceOrCase g); [|done].
  destruct (permitted1 g) as [_ ->]. by destruct (permitted2 g) as [_ ->].
Qed.

Lemma grandchildren_two_visits c :
  flat_map (Visiting.flattened v1) (visitChildren v1 c)
  ≡ₚ flat_map (Visiting.flattened v2) (visitChildren v2 c).
Proof.
  apply flat_map_Permutation;
    [apply children_two_visits | apply flattened_two_visits].
Qed.

Lemma prioWhitelist_two_visits e excludeState prio :
  Visiting.prioWhitelist v1 e excludeState prio
  = Visiting.prioWhitelist v2 e excludeState prio.
Proof.
  unfold Visiting.prioWhitelist.
  destruct (IsContainer e || IsList e); [|done].
  destruct (DirLookup e prio) as [c|]; [|done].
  destruct (excludeState && negb (IsConfig c)); [done|].
  destruct (IsConfigState c); [|done].
  apply set_eq. intros k. rewrite !elem_of_list_to_set.
  by rewrite (grandchildren_two_visits c).
Qed.

Lemma childCandidates_two_visits e excludeState deprio W name :
  Visiting.childCandidates v1 e excludeState deprio W name
  ≡ₚ Visiting.childCandidates v2 e excludeState deprio W name.
Proof.
  unfold Visiting.childCandidates.
  destruct (DirLookup e name) as [c|]; [|done].
  destruct (excludeState && negb (IsConfig c)); [done|].
  destruct (IsConfigState c).
  { destruct (String.eqb (Name c) deprio);
      by rewrite (grandchildren_two_visits c). }
  destruct (IsDir c); [|done].
  rewrite (singletonList_Permutation _ _ (children_two_visits c)).
  destruct (singletonList (visitChildren v2 c)); [done|].
  apply flattened_two_visits.
Qed.

Lemma orderedChildNames_two_visits e prio :
  Visiting.orderedChildNames v1 e prio ≡ₚ Visiting.orderedChildNames v2 e prio.
Proof.
  unfold Visiting.orderedChildNames. by rewrite (children_two_visits e).
Qed.

(** Two visits offer the same nodes to the guard, in two orders. *)
Lemma candidates_two_visits e p :
  Visiting.candidates v1 e p ≡ₚ Visiting.candidates v2 e p.
Proof.
  unfold Visiting.candidates.
  destruct (StateExcluded p && negb (IsConfig e)); [done|].
  assert (forall x prio deprio,
             Visiting.compressedCandidates v1 e x prio deprio
             ≡ₚ Visiting.compressedCandidates v2 e x prio deprio)
    as Hcompressed.
  { intros x prio deprio. unfold Visiting.compressedCandidates.
    rewrite prioWhitelist_two_visits.
    apply flat_map_Permutation; [apply orderedChildNames_two_visits|].
    intros name. apply childCandidates_two_visits. }
  destruct p; try apply Hcompressed.
  all: unfold Visiting.uncompressedCandidates; apply flat_map_Permutation;
    [apply children_two_visits|]; intros c;
    destruct (StateExcluded _ && negb (IsConfig c));
    [done | apply flattened_two_visits].
Qed.

End TwoVisits.

Lemma names_injective (cs : list Entry) x y :
  NoDup (map Name cs) -> x ∈ cs -> y ∈ cs -> Name x = Name y -> x = y.
Proof.
  induction cs as [|c cs IH]; intros Hnodup Hx Hy Heq;
    [by apply elem_of_nil in Hx|].
  simpl in Hnodup. apply NoDup_cons in Hnodup as [Hc Hnodup].
  apply elem_of_cons in Hx as [->|Hx]; apply elem_of_cons in Hy as [->|Hy].
  - done.
  - destruct Hc. rewrite Heq. by apply list_elem_of_fmap_2.
  - destruct Hc. rewrite <- Heq. by apply list_elem_of_fmap_2.
  - by apply IH.
Qed.

Lemma firstNamed_Permutation (cs1 cs2 : list Entry) k :
  NoDup (map Name cs1) -> cs1 ≡ₚ cs2 -> firstNamed k cs1 = firstNamed k cs2.
Proof.
  intros Hnodup Hperm.
  destruct (firstNamed k cs1) as [x|] eqn:H1;
    destruct (firstNamed k cs2) as [y|] eqn:H2; try done.
  - apply firstNamed_Some in H1 as [Hx Hkx], H2 as [Hy Hky].
    f_equal. apply (names_injective cs1); try done; [|congruence].
    by rewrite Hperm.
  - apply firstNamed_Some in H1 as [Hx Hkx]. rewrite Hperm in Hx.
    by destruct (firstNamed_None _ _ H2 x Hx).
  - apply firstNamed_Some in H2 as [Hy Hky]. rewrite <- Hperm in Hy.
    by destruct (firstNamed_None _ _ H1 y Hy).
Qed.

Lemma addAll_dom (cs : list Entry) :
  dom (addAll (∅, []) cs).1 = list_to_set (map Name cs).
Proof.
  apply set_eq. intros k.
  rewrite elem_of_dom, addAll_lookup, elem_of_list_to_set, elem_of_names.
  done.
Qed.

(** The guard applied to the same candidates in two orders: the same names
    are bound and as many candidates are turned down; when none is turned
    down the two results are the same. *)
Lemma addAll_Permutation (cs1 cs2 : list Entry) :
  cs1 ≡ₚ cs2 ->
  dom (addAll (∅, []) cs1).1 = dom (addAll (∅, []) cs2).1
  /\ length (addAll (∅, []) cs1).2 = length (addAll (∅, []) cs2).2
  /\ ((addAll (∅, []) cs1).2 = [] -> addAll (∅, []) cs2 = addAll (∅, []) cs1).
Proof.
  intros Hperm.
  assert (dom (addAll (∅, []) cs1).1 = dom (addAll (∅, []) cs2).1) as Hdom.
  { rewrite !addAll_dom. apply set_eq. intros k.
    by rewrite !elem_of_list_to_set, Hperm. }
  split; [done|]. split.
  - pose proof (addAll_count cs1 (∅, [])) as H1.
    pose proof (addAll_count cs2 (∅, [])) as H2.
    rewrite <- !size_dom, Hdom in H1. rewrite <- !size_dom in H2.
    simpl in H1, H2. rewrite (Permutation_length Hperm) in H1. lia.
  - intros Hnone.
    assert (NoDup (map Name cs1)) as Hnodup.
    { rewrite addAll_errs in Hnone. simpl in Hnone.
      apply fmap_nil_inv in Hnone. rewrite dom_empty_L in Hnone.
      by apply rejected_nil in Hnone as [? _]. }
    assert ((addAll (∅, []) cs2).2 = []) as Hnone2.
    { rewrite addAll_errs. simpl. rewrite dom_empty_L.
      assert (rejected ∅ cs2 = []) as ->; [|done].
      apply rejected_nil. split; [by rewrite <- Hperm | set_solver]. }
    rewrite (surjective_pairing (addAll (∅, []) cs2)),
      (surjective_pairing (addAll (∅, []) cs1)), Hnone, Hnone2.
    f_equal. apply map_eq. intros k. rewrite !addAll_lookup. simpl.
    symmetry. by apply firstNamed_Permutation.
Qed.



